(** * cporter example library: array.c, fib.c, string_lib.c

    A shallow embedding of the three C translation units under
    [examples/lib] and the properties their specification states.

    - C integers are mathematical integers ([Z]) together with the range
      of their type.  Unsigned ([size_t]) arithmetic wraps modulo
      [2^64].  Signed overflow is undefined in C; the embedding is
      parameterised by an [overflow] convention that either stops the
      run with [Undefined] (the letter of the standard) or wraps in
      two's complement (what the usual targets do), and the theorems
      say which convention they hold for.
    - A [for] loop is the iteration of its body while its condition
      holds.  The embedding counts the iterations and is bounded by a
      number of iterations it may take ([Timeout] beyond it), so that
      termination is a theorem and not an artefact of the encoding.
    - The heap is a finite map from block identifiers to byte cells. *)

From Stdlib Require Import ZArith Lia List Strings.Byte.
From stdpp Require Import base option list gmap strings.
Import ListNotations.

Local Open Scope Z_scope.

(** ** Outcomes of a run *)

Inductive outcome (A : Type) : Type :=
| Ret (a : A)      (* the call returns [a] *)
| Undefined        (* the run reaches undefined behaviour *)
| Timeout.         (* the iteration bound was exhausted first *)

Arguments Ret {A} a.
Arguments Undefined {A}.
Arguments Timeout {A}.

Definition bind {A B} (o : outcome A) (k : A -> outcome B) : outcome B :=
  match o with
  | Ret a => k a
  | Undefined => Undefined
  | Timeout => Timeout
  end.

(** A partial operation ([None]: undefined behaviour) as a run. *)
Definition lift {A} (o : option A) : outcome A :=
  match o with
  | Some a => Ret a
  | None => Undefined
  end.

(** ** Integer types *)

Module CInt.

Definition INT_MIN : Z := - 2 ^ 31.
Definition INT_MAX : Z := 2 ^ 31 - 1.
Definition LLONG_MIN : Z := - 2 ^ 63.
Definition LLONG_MAX : Z := 2 ^ 63 - 1.
Definition SIZE_MAX : Z := 2 ^ 64 - 1.

(** Signed overflow: undefined ([Trap]) or two's complement ([Wrap]). *)
Inductive overflow : Type := Trap | Wrap.

Definition fits (bits : Z) (z : Z) : bool :=
  (- 2 ^ (bits - 1) <=? z) && (z <=? 2 ^ (bits - 1) - 1).

Definition wrap (bits : Z) (z : Z) : Z :=
  (z + 2 ^ (bits - 1)) mod 2 ^ bits - 2 ^ (bits - 1).

(** The value of a signed [bits]-wide expression whose exact result
    is [z]. *)
Definition signed (ov : overflow) (bits : Z) (z : Z) : option Z :=
  if fits bits z then Some z
  else match ov with
       | Trap => None
       | Wrap => Some (wrap bits z)
       end.

Definition int_add ov (a b : Z) : option Z := signed ov 32 (a + b).
Definition ll_add ov (a b : Z) : option Z := signed ov 64 (a + b).
Definition ll_mul ov (a b : Z) : option Z := signed ov 64 (a * b).

(** [size_t] arithmetic is modular. *)
Definition size_add (a b : Z) : Z := (a + b) mod 2 ^ 64.
Definition size_mul (a b : Z) : Z := (a * b) mod 2 ^ 64.

Definition is_int (z : Z) : Prop := INT_MIN <= z <= INT_MAX.
Definition is_llong (z : Z) : Prop := LLONG_MIN <= z <= LLONG_MAX.

End CInt.

Import CInt.

(** ** Loops *)

Section While.

Context {St : Type}.
Variable cond : St -> bool.
Variable body : St -> option St.

(** [while fuel s]: run the loop from state [s], taking at most
    [fuel] iterations.  The result carries the number of iterations
    that were executed. *)
Fixpoint while (fuel : nat) (s : St) : outcome (nat * St) :=
  if cond s then
    match fuel with
    | O => Timeout
    | S fuel' =>
        match body s with
        | None => Undefined
        | Some s' =>
            bind (while fuel' s') (fun r => Ret (S (fst r), snd r))
        end
    end
  else Ret (O, s).

End While.

(** ** fib.c *)

Module Fib.

(** The locals of the loop: [i], [prev], [current]. *)
Record locals : Type := Locals { i : Z; prev : Z; current : Z }.

(** [i <= n] *)
Definition loop_cond (n : Z) (s : locals) : bool := i s <=? n.

(** [next = prev + current; prev = current; current = next;] then [i++] *)
Definition loop_body (ov : overflow) (s : locals) : option locals :=
  match ll_add ov (prev s) (current s) with
  | None => None
  | Some next =>
      match int_add ov (i s) 1 with
      | None => None
      | Some i' => Some (Locals i' (current s) next)
      end
  end.

(** [prev = 0; current = 1; i = 2] *)
Definition loop_init : locals := Locals 2 0 1.

Definition loop (ov : overflow) (fuel : nat) (n : Z) : outcome (nat * locals) :=
  while (loop_cond n) (loop_body ov) fuel loop_init.

(** The call, with the number of loop iterations it executed. *)
Definition fibonacci_iterative_run (ov : overflow) (fuel : nat) (n : Z)
  : outcome (nat * Z) :=
  if n <=? 1 then Ret (O, n)
  else bind (loop ov fuel n) (fun r => Ret (fst r, current (snd r))).

Definition fibonacci_iterative (ov : overflow) (fuel : nat) (n : Z) : outcome Z :=
  bind (fibonacci_iterative_run ov fuel n) (fun r => Ret (snd r)).

(** The Fibonacci numbers: [F 0 = 0], [F 1 = 1],
    [F (n + 2) = F (n + 1) + F n]. *)
Fixpoint F (k : nat) : Z :=
  match k with
  | O => 0
  | S k' =>
      match k' with
      | O => 1
      | S k'' => F k' + F k''
      end
  end.

(** [(F k, F (k + 1))] by the linear recurrence, to evaluate [F] at
    large indices. *)
Fixpoint F_pair (k : nat) : Z * Z :=
  match k with
  | O => (0, 1)
  | S k' => let p := F_pair k' in (snd p, fst p + snd p)
  end.

End Fib.

(** ** array.c *)

Module Array.

(** The locals of the loop: [i], [result]. *)
Record locals : Type := Locals { i : Z; result : Z }.

(** [i < n] *)
Definition loop_cond (n : Z) (s : locals) : bool := i s <? n.

(** [(long long)a * a]: the left operand is converted to [long long],
    which brings the right one to [long long] as well; both
    conversions keep the value, the product is a [long long] one. *)
Definition square (ov : overflow) (a : Z) : option Z := ll_mul ov a a.

(** [result += (long long)arr[i] * arr[i];] then [++i].  Reading
    past the end of [arr] is undefined. *)
Definition loop_body (ov : overflow) (arr : list Z) (s : locals) : option locals :=
  match arr !! Z.to_nat (i s) with
  | None => None
  | Some a =>
      match square ov a with
      | None => None
      | Some sq =>
          match ll_add ov (result s) sq with
          | None => None
          | Some r => Some (Locals (size_add (i s) 1) r)
          end
      end
  end.

(** [result = 0; i = 0] *)
Definition loop_init : locals := Locals 0 0.

Definition loop (ov : overflow) (fuel : nat) (arr : list Z) (n : Z)
  : outcome (nat * locals) :=
  while (loop_cond n) (loop_body ov arr) fuel loop_init.

(** The call, with the number of loop iterations it executed. *)
Definition sum_of_squares_run (ov : overflow) (fuel : nat) (arr : list Z) (n : Z)
  : outcome (nat * Z) :=
  bind (loop ov fuel arr n) (fun r => Ret (fst r, result (snd r))).

Definition sum_of_squares (ov : overflow) (fuel : nat) (arr : list Z) (n : Z)
  : outcome Z :=
  bind (sum_of_squares_run ov fuel arr n) (fun r => Ret (snd r)).

(** The exact sum of the squares, in [Z], left to right. *)
Definition exact_sum_of_squares (l : list Z) : Z :=
  fold_left (fun acc x => acc + x * x) l 0.

(** The same sum, as the sum of the list of the squares. *)
Definition list_sum_Z (l : list Z) : Z := fold_right Z.add 0 l.

(** An array of [int]. *)
Definition int_array (arr : list Z) : Prop := Forall is_int arr.

End Array.

(** ** string_lib.c *)

Module StringLib.

(** A byte of memory; [None] is the indeterminate content of fresh
    storage. *)
Definition cell : Type := option byte.

(** An object: its bytes, and whether [malloc] made it. *)
Record block : Type := Block { cells : list cell; on_heap : bool }.

(** Memory: the live objects, by identifier. *)
Abbreviation mem := (gmap nat block).

Inductive ptr : Type :=
| NULL
| Ptr (b : nat) (off : nat).

Definition is_nul (c : byte) : bool :=
  match c with x00 => true | _ => false end.

(** The bytes before the first NUL; [None] when the scan leaves the
    object or meets an indeterminate byte. *)
Fixpoint scan (cs : list cell) : option (list byte) :=
  match cs with
  | [] => None
  | None :: _ => None
  | Some c :: rest =>
      if is_nul c then Some []
      else match scan rest with
           | None => None
           | Some s => Some (c :: s)
           end
  end.

(** The C string a pointer designates. *)
Definition load_string (m : mem) (p : ptr) : option (list byte) :=
  match p with
  | NULL => None
  | Ptr b off =>
      match m !! b with
      | None => None
      | Some blk => scan (drop off (cells blk))
      end
  end.

Definition strlen (m : mem) (p : ptr) : option Z :=
  match load_string m p with
  | None => None
  | Some s => Some (Z.of_nat (length s))
  end.

(** Writing [data] at [p]; it must lie inside the object. *)
Definition store (m : mem) (p : ptr) (data : list byte) : option mem :=
  match p with
  | NULL => None
  | Ptr b off =>
      match m !! b with
      | None => None
      | Some blk =>
          if (off + length data <=? length (cells blk))%nat then
            Some (<[b := Block (take off (cells blk) ++ (Some <$> data)
                                  ++ drop (off + length data) (cells blk))
                               (on_heap blk)]> m)
          else None
      end
  end.

(** Whether [len] bytes at [p] and [len] bytes at [q] share a byte. *)
Definition overlap (p q : ptr) (len : nat) : bool :=
  match p, q with
  | Ptr b1 o1, Ptr b2 o2 =>
      (b1 =? b2)%nat && (o1 <? o2 + len)%nat && (o2 <? o1 + len)%nat
  | _, _ => false
  end.

(** [strcpy(dst, src)]: the string at [src] with its terminator. *)
Definition strcpy (m : mem) (dst src : ptr) : option mem :=
  match load_string m src with
  | None => None
  | Some s =>
      if overlap dst src (length s + 1) then None
      else store m dst (s ++ [x00])
  end.

(** [malloc(size)].  Whether the allocator finds the storage is not
    the program's to decide: [ok] is the allocator's answer.  On
    success the object is new and its content indeterminate.  Its
    identifier is one no live object has; like an address, it may be
    one that a released object had. *)
Definition malloc (ok : bool) (size : Z) (m : mem) : ptr * mem :=
  if ok then
    let b := fresh (dom m) in
    (Ptr b 0, <[b := Block (replicate (Z.to_nat size) None) true]> m)
  else (NULL, m).

(** [free(p)]: nothing for a null pointer, else [p] must be what
    [malloc] returned for a live object. *)
Definition free (m : mem) (p : ptr) : option mem :=
  match p with
  | NULL => Some m
  | Ptr b off =>
      match m !! b with
      | None => None
      | Some blk =>
          if on_heap blk && (off =? 0)%nat then Some (delete b m) else None
      end
  end.

(** [sizeof(char)] *)
Definition sizeof_char : Z := 1.

Definition create_string (ok : bool) (input : ptr) (m : mem) : outcome (ptr * mem) :=
  match strlen m input with
  | None => Undefined
  | Some len =>
      let '(result, m1) := malloc ok (size_mul (size_add len 1) sizeof_char) m in
      match result with
      | NULL => Ret (NULL, m1)
      | Ptr _ _ =>
          match strcpy m1 result input with
          | None => Undefined
          | Some m2 => Ret (result, m2)
          end
      end
  end.

Definition free_string (str : ptr) (m : mem) : outcome mem :=
  match str with
  | NULL => Ret m
  | Ptr _ _ => lift (free m str)
  end.

(** A string literal as an object of its own. *)
Definition literal (s : list byte) : block := Block (Some <$> (s ++ [x00])) false.

(** ["hello"] *)
Definition hello : list byte := [x68; x65; x6c; x6c; x6f].

End StringLib.


(** ** fib.c, in the state of the program

    The same function as a transformer of the whole program state: the
    variables in scope by name (the function's own, with whatever they
    held before the call, and everybody else's) and the memory.  Each
    statement of the source is one step on that state. *)

Module FibStore.

Record state : Type := State { vars : string -> Z; heap : StringLib.mem }.

(** Reading and assigning a variable. *)
Definition get (x : string) (st : state) : Z := vars st x.

Definition set (x : string) (v : Z) (st : state) : state :=
  State (fun y => if String.eqb y x then v else vars st y) (heap st).

(** The names the function declares: its parameter and its locals. *)
Definition own : list string :=
  ["n"; "prev"; "current"; "i"; "next"]%string.

(** [i <= n] *)
Definition loop_cond (st : state) : bool := get "i" st <=? get "n" st.

(** [long long next = prev + current; prev = current; current = next;]
    then [i++] *)
Definition loop_body (ov : overflow) (st : state) : option state :=
  match ll_add ov (get "prev" st) (get "current" st) with
  | None => None
  | Some next =>
      let st1 := set "next" next st in
      let st2 := set "prev" (get "current" st1) st1 in
      let st3 := set "current" (get "next" st2) st2 in
      match int_add ov (get "i" st3) 1 with
      | None => None
      | Some i' => Some (set "i" i' st3)
      end
  end.

(** The call [fibonacci_iterative(n)] from the state [st]: the value
    returned and the state it leaves. *)
Definition fibonacci_iterative (ov : overflow) (fuel : nat) (n : Z) (st : state)
  : outcome (Z * state) :=
  let st0 := set "n" n st in
  if get "n" st0 <=? 1 then Ret (get "n" st0, st0)
  else
    let st1 := set "prev" 0 st0 in
    let st2 := set "current" 1 st1 in
    let st3 := set "i" 2 st2 in
    bind (while loop_cond (loop_body ov) fuel st3)
         (fun r => Ret (get "current" (snd r), snd r)).

(** The value of a call, the state dropped. *)
Definition value_of (o : outcome (Z * state)) : outcome Z :=
  bind o (fun r => Ret (fst r)).

(** The locals of the loop as [Fib] has them. *)
Definition project (st : state) : Fib.locals :=
  Fib.Locals (get "i" st) (get "prev" st) (get "current" st).

(** [st'] differs from [st] at most in the function's own variables. *)
Definition frame (st st' : state) : Prop :=
  heap st' = heap st /\ forall x, ~ In x own -> vars st' x = vars st x.

End FibStore.

(** ** Loop invariants and variants *)

(** [fibonacci_iterative]: after [j] iterations, for the index [N],
    [i = 2 + j] and [(prev, current) = (F j, F (j + 1))]. *)
Definition fib_inv (N : nat) (s : Fib.locals) : Prop :=
  exists j : nat,
    (S j <= N)%nat /\ Fib.i s = 2 + Z.of_nat j /\
    Fib.prev s = Fib.F j /\ Fib.current s = Fib.F (S j).

(** The iterations left before [i] exceeds [n]. *)
Definition fib_left (n : Z) (s : Fib.locals) : nat := Z.to_nat (n + 1 - Fib.i s).

(** [sum_of_squares]: after [i] iterations, [result] is the exact sum
    of the first [i] squares. *)
Definition array_inv (arr : list Z) (s : Array.locals) : Prop :=
  0 <= Array.i s <= Z.of_nat (length arr) /\
  Array.result s = Array.exact_sum_of_squares (take (Z.to_nat (Array.i s)) arr).

(** The iterations left before [i] reaches [n]. *)
Definition array_left (n : Z) (s : Array.locals) : nat := Z.to_nat (n - Array.i s).

(** * Properties *)

(** ** Signed arithmetic *)

Lemma fits_spec bits z :
  fits bits z = true <-> - 2 ^ (bits - 1) <= z <= 2 ^ (bits - 1) - 1.
Proof. unfold fits. rewrite andb_true_iff, !Z.leb_le. tauto. Qed.

Lemma signed_fits ov bits z :
  - 2 ^ (bits - 1) <= z <= 2 ^ (bits - 1) - 1 -> signed ov bits z = Some z.
Proof. intros H. unfold signed. apply fits_spec in H. now rewrite H. Qed.

Lemma signed_trap_inv bits z v :
  signed Trap bits z = Some v ->
  v = z /\ - 2 ^ (bits - 1) <= z <= 2 ^ (bits - 1) - 1.
Proof.
  unfold signed. destruct (fits bits z) eqn:E; [|discriminate].
  intros [= <-]. split; [reflexivity | now apply fits_spec].
Qed.

(** What [Trap] computes, every convention computes. *)
Lemma signed_trap_any ov bits z v :
  signed Trap bits z = Some v -> signed ov bits z = Some v.
Proof.
  intros H. apply signed_trap_inv in H as [-> H]. now apply signed_fits.
Qed.

Lemma signed_wrap_total bits z : exists v, signed Wrap bits z = Some v.
Proof. unfold signed. destruct (fits bits z); eauto. Qed.

Lemma wrap_range bits z :
  0 < bits -> - 2 ^ (bits - 1) <= wrap bits z <= 2 ^ (bits - 1) - 1.
Proof.
  intros Hb. unfold wrap.
  assert (E : 2 ^ bits = 2 * 2 ^ (bits - 1)).
  { replace bits with (Z.succ (bits - 1)) at 1 by lia.
    rewrite Z.pow_succ_r by lia. reflexivity. }
  assert (0 < 2 ^ (bits - 1)) by (apply Z.pow_pos_nonneg; lia).
  pose proof (Z.mod_pos_bound (z + 2 ^ (bits - 1)) (2 ^ bits)). lia.
Qed.

Lemma signed_range ov bits z v :
  0 < bits -> signed ov bits z = Some v ->
  - 2 ^ (bits - 1) <= v <= 2 ^ (bits - 1) - 1.
Proof.
  intros Hb. unfold signed. destruct (fits bits z) eqn:E.
  - intros [= <-]. now apply fits_spec.
  - destruct ov; [discriminate|]. intros [= <-]. now apply wrap_range.
Qed.

(** ** Loops *)

Section WhileFacts.

Context {St : Type}.
Variable cond : St -> bool.

(** More iterations allowed do not change a run that ended. *)
Lemma while_fuel_mono (body : St -> option St) fuel fuel' s :
  (fuel <= fuel')%nat ->
  while cond body fuel s <> Timeout ->
  while cond body fuel' s = while cond body fuel s.
Proof.
  revert fuel' s. induction fuel as [|fuel IH]; intros fuel' s Hle Hne.
  - simpl in *. destruct (cond s) eqn:Ec; [congruence|].
    destruct fuel'; simpl; now rewrite Ec.
  - destruct fuel' as [|fuel']; [lia|]. simpl in *.
    destruct (cond s); [|reflexivity].
    destruct (body s) as [s'|]; [|reflexivity].
    rewrite (IH fuel' s'); [reflexivity | lia |].
    intros E. rewrite E in Hne. now apply Hne.
Qed.

(** A body that does at least what another does runs at least as far. *)
Lemma while_body_mono (body1 body2 : St -> option St) fuel s r :
  (forall s s', body1 s = Some s' -> body2 s = Some s') ->
  while cond body1 fuel s = Ret r -> while cond body2 fuel s = Ret r.
Proof.
  intros Hb. revert s r. induction fuel as [|fuel IH]; intros s r; simpl.
  - destruct (cond s); [discriminate | auto].
  - destruct (cond s); [|auto].
    destruct (body1 s) as [s'|] eqn:E1; [|discriminate].
    rewrite (Hb _ _ E1).
    destruct (while cond body1 fuel s') as [r'| |] eqn:Ew; try discriminate.
    now rewrite (IH _ _ Ew).
Qed.

(** A loop whose body is defined on an invariant and counts a measure
    down to the exit runs exactly that many iterations. *)
Lemma while_exact (body : St -> option St) (I : St -> Prop) (mu : St -> nat) :
  (forall s, I s -> cond s = false -> mu s = O) ->
  (forall s, I s -> cond s = true ->
             exists s', body s = Some s' /\ I s' /\ mu s = S (mu s')) ->
  forall fuel s, I s -> (mu s <= fuel)%nat ->
  exists s', while cond body fuel s = Ret (mu s, s') /\ I s' /\ cond s' = false.
Proof.
  intros Hexit Hstep. induction fuel as [|fuel IH]; intros s Hs Hmu.
  - simpl. destruct (cond s) eqn:Ec.
    + destruct (Hstep s Hs Ec) as (s' & _ & _ & E). lia.
    + rewrite (Hexit s Hs Ec). eauto.
  - simpl. destruct (cond s) eqn:Ec.
    + destruct (Hstep s Hs Ec) as (s' & Eb & Hs' & E). rewrite Eb.
      destruct (IH s' Hs') as (s'' & Ew & Hs'' & Ec''); [lia|].
      rewrite Ew. simpl. rewrite E. eauto.
    + rewrite (Hexit s Hs Ec). eauto.
Qed.

(** A loop whose condition holds on an invariant that its body keeps
    never exits. *)
Lemma while_stuck (body : St -> option St) (I : St -> Prop) :
  (forall s, I s -> cond s = true) ->
  (forall s s', I s -> body s = Some s' -> I s') ->
  forall fuel s r, I s -> while cond body fuel s <> Ret r.
Proof.
  intros Hc Hb. induction fuel as [|fuel IH]; intros s r Hs; simpl.
  - now rewrite (Hc s Hs).
  - rewrite (Hc s Hs). destruct (body s) as [s'|] eqn:Eb; [|discriminate].
    destruct (while cond body fuel s') as [r'| |] eqn:Ew; try discriminate.
    exfalso. exact (IH s' r' (Hb _ _ Hs Eb) Ew).
Qed.

End WhileFacts.

Lemma ll_add_fits ov a b :
  is_llong (a + b) -> ll_add ov a b = Some (a + b).
Proof. intros H. apply signed_fits. exact H. Qed.

Lemma ll_mul_fits ov a b :
  is_llong (a * b) -> ll_mul ov a b = Some (a * b).
Proof. intros H. apply signed_fits. exact H. Qed.

Lemma int_add_fits ov a b :
  is_int (a + b) -> int_add ov a b = Some (a + b).
Proof. intros H. apply signed_fits. exact H. Qed.

(** ** fib.c *)

Lemma F_step k : Fib.F (S (S k)) = Fib.F (S k) + Fib.F k.
Proof. reflexivity. Qed.

Lemma F_pair_spec k : Fib.F_pair k = (Fib.F k, Fib.F (S k)).
Proof.
  induction k as [|k IH]; [reflexivity|].
  cbn [Fib.F_pair]. rewrite IH. cbn [fst snd]. rewrite F_step.
  f_equal. lia.
Qed.

Lemma F_nonneg_step k : 0 <= Fib.F k <= Fib.F (S k) \/ k = 1%nat.
Proof.
  assert (H : forall j, 0 <= Fib.F j /\ 0 <= Fib.F (S j)).
  { induction j as [|j [IH1 IH2]]; [cbn; lia|]. rewrite F_step. lia. }
  destruct k as [|k]; [cbn; lia|]. left.
  rewrite F_step. destruct (H k) as [H1 H2]. lia.
Qed.

Lemma F_nonneg k : 0 <= Fib.F k.
Proof. destruct (F_nonneg_step k) as [H| ->]; [lia | cbn; lia]. Qed.

Lemma F_succ_le k : Fib.F k <= Fib.F (S k).
Proof. destruct (F_nonneg_step k) as [H| ->]; [lia | cbn; lia]. Qed.

Lemma F_mono j k : (j <= k)%nat -> Fib.F j <= Fib.F k.
Proof.
  induction 1 as [|k _ IH]; [lia|]. pose proof (F_succ_le k). lia.
Qed.

Lemma F_pair_fst k : fst (Fib.F_pair k) = Fib.F k.
Proof. now rewrite F_pair_spec. Qed.

Lemma F_93 : LLONG_MAX < Fib.F 93.
Proof. rewrite <- (F_pair_fst 93). now vm_compute. Qed.

(** The Fibonacci numbers a [long long] holds are those up to [F 92]. *)
Lemma F_fits_index k : Fib.F k <= LLONG_MAX -> (k <= 92)%nat.
Proof.
  intros H. destruct (le_lt_dec k 92) as [|Hk]; [assumption|].
  pose proof (F_mono 93 k Hk). pose proof F_93. lia.
Qed.

Lemma fib_loop_exact ov (N : nat) fuel :
  (2 <= N)%nat -> Fib.F N <= LLONG_MAX -> (N - 1 <= fuel)%nat ->
  Fib.loop ov fuel (Z.of_nat N)
  = Ret ((N - 1)%nat, Fib.Locals (Z.of_nat N + 1) (Fib.F (N - 1)) (Fib.F N)).
Proof.
  intros HN Hfit Hfuel.
  pose proof (F_fits_index _ Hfit) as H92.
  assert (Hexit : forall s, fib_inv N s ->
            Fib.loop_cond (Z.of_nat N) s = false -> fib_left (Z.of_nat N) s = O).
  { intros s (j & Hj & Ei & _) Hc. unfold Fib.loop_cond in Hc.
    apply Z.leb_gt in Hc. unfold fib_left. lia. }
  assert (Hstep : forall s, fib_inv N s -> Fib.loop_cond (Z.of_nat N) s = true ->
            exists s', Fib.loop_body ov s = Some s' /\ fib_inv N s' /\
                       fib_left (Z.of_nat N) s = S (fib_left (Z.of_nat N) s')).
  { intros s (j & Hj & Ei & Ep & Ec) Hc. unfold Fib.loop_cond in Hc.
    apply Z.leb_le in Hc. unfold Fib.loop_body. rewrite Ep, Ec.
    rewrite ll_add_fits.
    2:{ rewrite Z.add_comm, <- F_step. split.
        - pose proof (F_nonneg (S (S j))). unfold LLONG_MIN. lia.
        - pose proof (F_mono (S (S j)) N). lia. }
    rewrite int_add_fits by (unfold is_int, INT_MIN, INT_MAX; lia).
    eexists. split; [reflexivity|]. split.
    - exists (S j). cbn [Fib.i Fib.prev Fib.current].
      repeat split; try lia. rewrite F_step. lia.
    - unfold fib_left. cbn [Fib.i]. lia. }
  assert (Hinit : fib_inv N Fib.loop_init).
  { exists 0%nat. cbn. repeat split; lia. }
  destruct (while_exact _ _ _ _ Hexit Hstep fuel Fib.loop_init Hinit)
    as (s' & Ew & (j & Hj & Ei & Ep & Ec) & Hc).
  { unfold fib_left. cbn. lia. }
  unfold Fib.loop_cond in Hc. apply Z.leb_gt in Hc.
  assert (j = N - 1)%nat as -> by lia.
  unfold Fib.loop. rewrite Ew. f_equal. f_equal.
  - unfold fib_left. cbn. lia.
  - destruct s' as [i' p' c']. cbn [Fib.i Fib.prev Fib.current] in *. subst.
    replace (S (N - 1)) with N by lia. f_equal. lia.
Qed.

Lemma fib_run_small ov fuel n :
  n <= 1 -> Fib.fibonacci_iterative_run ov fuel n = Ret (O, n).
Proof.
  intros H. unfold Fib.fibonacci_iterative_run.
  apply Z.leb_le in H. now rewrite H.
Qed.

Lemma fib_run_exact ov fuel n :
  0 <= n -> Fib.F (Z.to_nat n) <= LLONG_MAX -> (Z.to_nat n - 1 <= fuel)%nat ->
  Fib.fibonacci_iterative_run ov fuel n
  = Ret (Z.to_nat (n - 1), Fib.F (Z.to_nat n)).
Proof.
  intros Hn Hfit Hfuel. destruct (Z.le_gt_cases n 1) as [H1|H1].
  - rewrite fib_run_small by assumption.
    assert (n = 0 \/ n = 1) as [-> | ->] by lia; reflexivity.
  - unfold Fib.fibonacci_iterative_run.
    apply Z.leb_gt in H1 as E. rewrite E.
    pose proof (fib_loop_exact ov (Z.to_nat n) fuel) as El.
    rewrite Z2Nat.id in El by lia. rewrite El by (assumption || lia).
    cbn [bind fst snd Fib.current]. do 2 f_equal. lia.
Qed.

Lemma fib_value ov fuel n k v :
  Fib.fibonacci_iterative_run ov fuel n = Ret (k, v) ->
  Fib.fibonacci_iterative ov fuel n = Ret v.
Proof. unfold Fib.fibonacci_iterative. now intros ->. Qed.

Lemma fib_value_inv ov fuel n v :
  Fib.fibonacci_iterative ov fuel n = Ret v ->
  exists k, Fib.fibonacci_iterative_run ov fuel n = Ret (k, v).
Proof.
  unfold Fib.fibonacci_iterative.
  destruct (Fib.fibonacci_iterative_run ov fuel n) as [[k v']| |];
    cbn; intros [= <-]. now exists k.
Qed.

(** C1: for every index [n >= 0] whose Fibonacci number fits a
    [long long], [fibonacci_iterative n] returns [F n], where [F 0 = 0],
    [F 1 = 1]: it returns [n] itself when [n <= 1]; for [n >= 2] its
    value is the sum of its values at [n - 1] and [n - 2]; and it gets
    there in [n - 1] iterations of the loop, which leave the pair
    [(prev, current)] at [(F (n - 1), F n)]. *)
Theorem fibonacci_iterative_correct ov fuel n :
  0 <= n -> Fib.F (Z.to_nat n) <= LLONG_MAX -> (Z.to_nat n - 1 <= fuel)%nat ->
  Fib.fibonacci_iterative ov fuel n = Ret (Fib.F (Z.to_nat n))
  /\ (n <= 1 -> Fib.fibonacci_iterative ov fuel n = Ret n)
  /\ (2 <= n ->
      exists a b,
        Fib.fibonacci_iterative ov fuel (n - 1) = Ret a /\
        Fib.fibonacci_iterative ov fuel (n - 2) = Ret b /\
        Fib.fibonacci_iterative ov fuel n = Ret (a + b))
  /\ (2 <= n ->
      Fib.loop ov fuel n
      = Ret (Z.to_nat (n - 1),
             Fib.Locals (n + 1) (Fib.F (Z.to_nat (n - 1))) (Fib.F (Z.to_nat n)))).
Proof.
  intros Hn Hfit Hfuel.
  pose proof (fib_run_exact ov fuel n Hn Hfit Hfuel) as Hrun.
  split; [exact (fib_value _ _ _ _ _ Hrun)|].
  split; [intros H1; exact (fib_value _ _ _ _ _ (fib_run_small ov fuel n H1))|].
  split.
  - intros H2.
    exists (Fib.F (Z.to_nat (n - 1))), (Fib.F (Z.to_nat (n - 2))).
    assert (Hm : forall d, 0 < d <= 2 ->
              Fib.fibonacci_iterative ov fuel (n - d) = Ret (Fib.F (Z.to_nat (n - d)))).
    { intros d Hd. eapply fib_value, fib_run_exact; [lia| |lia].
      pose proof (F_mono (Z.to_nat (n - d)) (Z.to_nat n)). lia. }
    rewrite !Hm by lia. repeat split.
    rewrite (fib_value _ _ _ _ _ Hrun). f_equal.
    replace (Z.to_nat n) with (S (S (Z.to_nat (n - 2)))) by lia.
    replace (Z.to_nat (n - 1)) with (S (Z.to_nat (n - 2))) by lia.
    apply F_step.
  - intros H2.
    pose proof (fib_loop_exact ov (Z.to_nat n) fuel) as E.
    rewrite Z2Nat.id in E by lia. rewrite E by (assumption || lia).
    now replace (Z.to_nat (n - 1)) with (Z.to_nat n - 1)%nat by lia.
Qed.

Lemma fibonacci_iterative_correct_witness :
  Fib.fibonacci_iterative Trap 9 10 = Ret 55
  /\ Fib.loop Wrap 20 10 = Ret (9%nat, Fib.Locals 11 34 55).
Proof.
  assert (H0 : 0 <= 10) by lia.
  assert (H1 : Fib.F (Z.to_nat 10) <= LLONG_MAX) by (vm_compute; discriminate).
  split.
  - assert (H2 : (Z.to_nat 10 - 1 <= 9)%nat) by (vm_compute; lia).
    exact (proj1 (fibonacci_iterative_correct Trap 9 10 H0 H1 H2)).
  - assert (H2 : (Z.to_nat 10 - 1 <= 20)%nat) by (vm_compute; lia).
    refine (proj2 (proj2 (proj2 (fibonacci_iterative_correct Wrap 20 10 H0 H1 H2))) _).
    lia.
Defined.

(** C8: for every negative [n], [fibonacci_iterative n] returns [n]
    itself, under either overflow convention and whatever the iteration
    bound: the [n <= 1] branch returns before the loop is entered. *)
Theorem fibonacci_iterative_negative ov fuel n :
  n < 0 ->
  Fib.fibonacci_iterative ov fuel n = Ret n
  /\ Fib.fibonacci_iterative_run ov fuel n = Ret (O, n).
Proof.
  intros H. assert (H1 : n <= 1) by lia.
  split; [|now apply fib_run_small].
  exact (fib_value _ _ _ _ _ (fib_run_small ov fuel n H1)).
Qed.

Lemma fibonacci_iterative_negative_witness :
  Fib.fibonacci_iterative Trap 0 (-7) = Ret (-7)
  /\ Fib.fibonacci_iterative_run Trap 0 (-7) = Ret (O, -7).
Proof. apply (fibonacci_iterative_negative Trap 0 (-7)). lia. Defined.

(** A run that returns without overflow is the same under every
    convention, and does not depend on the iteration bound. *)
Lemma fib_body_trap_any ov s s' :
  Fib.loop_body Trap s = Some s' -> Fib.loop_body ov s = Some s'.
Proof.
  unfold Fib.loop_body, ll_add, int_add.
  destruct (signed Trap 64 _) as [next|] eqn:E1; [|discriminate].
  destruct (signed Trap 32 _) as [i'|] eqn:E2; [|discriminate].
  intros [= <-].
  now rewrite (signed_trap_any ov _ _ _ E1), (signed_trap_any ov _ _ _ E2).
Qed.

Lemma fib_run_trap_any ov fuel n r :
  Fib.fibonacci_iterative_run Trap fuel n = Ret r ->
  Fib.fibonacci_iterative_run ov fuel n = Ret r.
Proof.
  unfold Fib.fibonacci_iterative_run, Fib.loop.
  destruct (n <=? 1); [auto|].
  destruct (while _ (Fib.loop_body Trap) fuel _) as [r'| |] eqn:Ew;
    try discriminate.
  intros H.
  now rewrite (while_body_mono _ _ (Fib.loop_body ov) _ _ _
                 (fib_body_trap_any ov) Ew).
Qed.

Lemma fib_run_fuel_mono ov fuel fuel' n r :
  (fuel <= fuel')%nat ->
  Fib.fibonacci_iterative_run ov fuel n = Ret r ->
  Fib.fibonacci_iterative_run ov fuel' n = Ret r.
Proof.
  unfold Fib.fibonacci_iterative_run, Fib.loop. intros Hle.
  destruct (n <=? 1); [auto|].
  destruct (while _ _ fuel _) as [r'| |] eqn:Ew; try discriminate.
  intros H. rewrite (while_fuel_mono _ _ fuel fuel'), Ew; [auto|lia|].
  now rewrite Ew.
Qed.

Lemma fib_run_to_wrap ov fuel fuel' n r :
  (fuel <= fuel')%nat ->
  Fib.fibonacci_iterative_run ov fuel n = Ret r ->
  Fib.fibonacci_iterative_run Wrap fuel' n = Ret r.
Proof.
  intros Hle H. apply (fib_run_fuel_mono Wrap fuel fuel' n r Hle).
  destruct ov; [now apply fib_run_trap_any | assumption].
Qed.

(** Two runs that return agree, whatever the overflow convention and
    the iteration bound of each. *)
Lemma fib_value_unique ov1 ov2 fuel1 fuel2 n v1 v2 :
  Fib.fibonacci_iterative ov1 fuel1 n = Ret v1 ->
  Fib.fibonacci_iterative ov2 fuel2 n = Ret v2 ->
  v1 = v2.
Proof.
  intros H1 H2.
  apply fib_value_inv in H1 as [k1 H1]. apply fib_value_inv in H2 as [k2 H2].
  apply (fib_run_to_wrap _ _ (Nat.max fuel1 fuel2)) in H1; [|lia].
  apply (fib_run_to_wrap _ _ (Nat.max fuel1 fuel2)) in H2; [|lia].
  congruence.
Qed.

(** With wrap-around, the loop of [fibonacci_iterative] exits after
    [n - 1] iterations for every [n] below [INT_MAX]. *)
Lemma fib_run_wrap_terminates fuel n :
  n < INT_MAX -> (Z.to_nat (n - 1) <= fuel)%nat ->
  exists v, Fib.fibonacci_iterative_run Wrap fuel n = Ret (Z.to_nat (n - 1), v).
Proof.
  intros Hn Hfuel. destruct (Z.le_gt_cases n 1) as [H1|H1].
  { rewrite fib_run_small by assumption. exists n. do 2 f_equal. lia. }
  unfold Fib.fibonacci_iterative_run, Fib.loop.
  apply Z.leb_gt in H1 as E. rewrite E.
  destruct (while_exact (Fib.loop_cond n) (Fib.loop_body Wrap)
              (fun s => 2 <= Fib.i s <= n + 1) (fib_left n)) with
    (fuel := fuel) (s := Fib.loop_init) as (s' & Ew & _ & _).
  - unfold Fib.loop_cond, fib_left. intros s Hs Hc. apply Z.leb_gt in Hc. lia.
  - unfold Fib.loop_cond, fib_left. intros s Hs Hc. apply Z.leb_le in Hc.
    unfold Fib.loop_body.
    destruct (signed_wrap_total 64 (Fib.prev s + Fib.current s)) as [next Enext].
    unfold ll_add. rewrite Enext.
    rewrite int_add_fits by (unfold is_int, INT_MIN, INT_MAX in *; lia).
    eexists. split; [reflexivity|]. cbn [Fib.i]. lia.
  - cbn. lia.
  - unfold fib_left. cbn. lia.
  - rewrite Ew. cbn. eexists. do 2 f_equal. unfold fib_left. cbn. lia.
Qed.

(** For [n = INT_MAX] the condition [i <= n] holds of every [int]: the
    loop has no exit, under either convention. *)
Lemma fib_loop_INT_MAX ov fuel r : Fib.loop ov fuel INT_MAX <> Ret r.
Proof.
  unfold Fib.loop.
  apply (while_stuck _ _ (fun s => is_int (Fib.i s))).
  - intros s [_ H]. unfold Fib.loop_cond. now apply Z.leb_le.
  - intros s s' _. unfold Fib.loop_body.
    destruct (ll_add ov _ _); [|discriminate].
    destruct (int_add ov (Fib.i s) 1) as [i'|] eqn:Ei; [|discriminate].
    intros [= <-]. cbn [Fib.i].
    apply signed_range in Ei; [exact Ei | lia].
  - cbn. unfold is_int, INT_MIN, INT_MAX. lia.
Qed.

Lemma fib_run_INT_MAX ov fuel r :
  Fib.fibonacci_iterative_run ov fuel INT_MAX <> Ret r.
Proof.
  unfold Fib.fibonacci_iterative_run.
  change (INT_MAX <=? 1) with false. cbv iota.
  destruct (Fib.loop ov fuel INT_MAX) as [r'| |] eqn:E; try discriminate.
  now apply fib_loop_INT_MAX in E.
Qed.

(** ** array.c *)

Lemma exact_sum_from l a :
  fold_left (fun acc x => acc + x * x) l a = a + Array.exact_sum_of_squares l.
Proof.
  unfold Array.exact_sum_of_squares. revert a.
  induction l as [|x l IH]; intros a; cbn [fold_left]; [lia|].
  rewrite (IH (a + x * x)), (IH (0 + x * x)). lia.
Qed.

Lemma exact_sum_app l1 l2 :
  Array.exact_sum_of_squares (l1 ++ l2)
  = Array.exact_sum_of_squares l1 + Array.exact_sum_of_squares l2.
Proof.
  unfold Array.exact_sum_of_squares at 1. rewrite fold_left_app.
  fold (Array.exact_sum_of_squares l1). apply exact_sum_from.
Qed.

Lemma exact_sum_snoc l x :
  Array.exact_sum_of_squares (l ++ [x]) = Array.exact_sum_of_squares l + x * x.
Proof. rewrite exact_sum_app. cbn. lia. Qed.

Lemma exact_sum_nonneg l : 0 <= Array.exact_sum_of_squares l.
Proof.
  induction l as [|x l IH]; [cbn; lia|].
  change (x :: l) with ([x] ++ l). rewrite exact_sum_app. cbn. nia.
Qed.

(** The running sums never exceed the final one. *)
Lemma exact_sum_take_le (arr : list Z) k :
  Array.exact_sum_of_squares (take k arr) <= Array.exact_sum_of_squares arr.
Proof.
  rewrite <- (take_drop k arr) at 2. rewrite exact_sum_app.
  pose proof (exact_sum_nonneg (drop k arr)). lia.
Qed.

Lemma exact_sum_take_S (arr : list Z) k a :
  arr !! k = Some a ->
  Array.exact_sum_of_squares (take (S k) arr)
  = Array.exact_sum_of_squares (take k arr) + a * a.
Proof. intros H. rewrite (take_S_r _ _ _ H). apply exact_sum_snoc. Qed.

Lemma int_square_bounds a : is_int a -> 0 <= a * a <= 2 ^ 62.
Proof. unfold is_int, INT_MIN, INT_MAX. intros H. nia. Qed.

Lemma square_of_int ov a : is_int a -> Array.square ov a = Some (a * a).
Proof.
  intros H. apply ll_mul_fits. apply int_square_bounds in H.
  unfold is_llong, LLONG_MIN, LLONG_MAX. lia.
Qed.

Lemma int_array_lookup (arr : list Z) k a :
  Array.int_array arr -> arr !! k = Some a -> is_int a.
Proof. intros H E. exact (proj1 (Forall_lookup _ _) H k a E). Qed.

Lemma size_add_1 i : 0 <= i < SIZE_MAX -> size_add i 1 = i + 1.
Proof. unfold size_add, SIZE_MAX. intros H. apply Z.mod_small. lia. Qed.

Lemma array_run_exact ov fuel (arr : list Z) :
  Array.int_array arr ->
  Z.of_nat (length arr) <= SIZE_MAX ->
  Array.exact_sum_of_squares arr <= LLONG_MAX ->
  (length arr <= fuel)%nat ->
  Array.sum_of_squares_run ov fuel arr (Z.of_nat (length arr))
  = Ret (length arr, Array.exact_sum_of_squares arr).
Proof.
  intros Hint Hsize Hfit Hfuel.
  remember (Z.of_nat (length arr)) as n eqn:En.
  destruct (while_exact (Array.loop_cond n) (Array.loop_body ov arr)
              (array_inv arr) (array_left n)) with
    (fuel := fuel) (s := Array.loop_init) as (s' & Ew & [Hi Hr] & Hc).
  - unfold Array.loop_cond, array_left. intros s [Hi _] Hc.
    apply Z.ltb_ge in Hc. lia.
  - unfold Array.loop_cond, array_left. intros s [Hi Hr] Hc.
    apply Z.ltb_lt in Hc. unfold Array.loop_body.
    destruct (lookup_lt_is_Some_2 arr (Z.to_nat (Array.i s))) as [a Ea]; [lia|].
    rewrite Ea, (square_of_int ov a (int_array_lookup _ _ _ Hint Ea)).
    pose proof (exact_sum_take_S arr _ a Ea) as ES.
    pose proof (exact_sum_take_le arr (S (Z.to_nat (Array.i s)))).
    pose proof (exact_sum_nonneg (take (S (Z.to_nat (Array.i s))) arr)).
    rewrite ll_add_fits by (unfold is_llong, LLONG_MIN, LLONG_MAX in *; lia).
    rewrite size_add_1 by lia.
    eexists. split; [reflexivity|].
    unfold array_inv. cbn [Array.i Array.result].
    split; [split; [lia|]|lia].
    replace (Z.to_nat (Array.i s + 1)) with (S (Z.to_nat (Array.i s))) by lia.
    lia.
  - split; cbn; [lia | reflexivity].
  - unfold array_left. cbn. lia.
  - unfold Array.loop_cond in Hc. apply Z.ltb_ge in Hc.
    unfold Array.sum_of_squares_run, Array.loop. rewrite Ew.
    cbn [bind fst snd]. rewrite Hr.
    replace (Z.to_nat (Array.i s')) with (length arr) by lia.
    rewrite firstn_all. unfold array_left. cbn [Array.loop_init Array.i].
    do 2 f_equal. lia.
Qed.

(** C2: for every array of [int] (of a length [n] that a [size_t]
    holds) whose exact sum of squares fits a [long long] (the squares
    and the running sums then fit as well), [sum_of_squares arr n]
    returns that exact sum, accumulated left to right over the indices
    [0 .. n - 1] in [n] iterations.  The array is only read: the
    embedding returns the value and nothing else. *)
Theorem sum_of_squares_exact ov fuel (arr : list Z) :
  Array.int_array arr ->
  Z.of_nat (length arr) <= SIZE_MAX ->
  Array.exact_sum_of_squares arr <= LLONG_MAX ->
  (length arr <= fuel)%nat ->
  Array.sum_of_squares ov fuel arr (Z.of_nat (length arr))
  = Ret (Array.exact_sum_of_squares arr)
  /\ Array.exact_sum_of_squares arr = Array.list_sum_Z (map (fun x => x * x) arr)
  /\ Array.sum_of_squares_run ov fuel arr (Z.of_nat (length arr))
     = Ret (length arr, Array.exact_sum_of_squares arr).
Proof.
  intros Hint Hsize Hfit Hfuel.
  pose proof (array_run_exact ov fuel arr Hint Hsize Hfit Hfuel) as Hrun.
  split; [|split; [|exact Hrun]].
  - unfold Array.sum_of_squares. now rewrite Hrun.
  - clear. induction arr as [|x arr IH]; [reflexivity|].
    change (x :: arr) with ([x] ++ arr) at 1. rewrite exact_sum_app, IH.
    unfold Array.exact_sum_of_squares, Array.list_sum_Z.
    cbn [fold_left fold_right map]. lia.
Qed.

Lemma sum_of_squares_exact_witness :
  Array.sum_of_squares Trap 3 [1; 2; 3] 3 = Ret 14
  /\ Array.sum_of_squares_run Wrap 5 [INT_MIN; INT_MAX] 2
     = Ret (2%nat, 9223372032559808513).
Proof.
  split.
  - refine (proj1 (sum_of_squares_exact Trap 3 [1; 2; 3] _ _ _ _)).
    + repeat constructor; vm_compute; discriminate.
    + vm_compute; discriminate.
    + vm_compute; discriminate.
    + vm_compute; lia.
  - refine (proj2 (proj2 (sum_of_squares_exact Wrap 5 [INT_MIN; INT_MAX] _ _ _ _))).
    + repeat constructor; vm_compute; discriminate.
    + vm_compute; discriminate.
    + vm_compute; discriminate.
    + vm_compute; lia.
Defined.

(** C6: [sum_of_squares arr 0] returns [0] for every array, whatever
    its content: the loop is not entered. *)
Theorem sum_of_squares_zero_length ov fuel (arr : list Z) :
  Array.sum_of_squares ov fuel arr 0 = Ret 0
  /\ Array.sum_of_squares_run ov fuel arr 0 = Ret (O, 0).
Proof. destruct fuel; split; reflexivity. Qed.

Lemma while_unfold {St} (cond : St -> bool) body fuel s :
  while cond body (S fuel) s
  = if cond s then
      match body s with
      | None => Undefined
      | Some s' => bind (while cond body fuel s') (fun r => Ret (S (fst r), snd r))
      end
    else Ret (O, s).
Proof. reflexivity. Qed.

Lemma fits_false bits z :
  fits bits z = false -> z < - 2 ^ (bits - 1) \/ 2 ^ (bits - 1) - 1 < z.
Proof.
  unfold fits. rewrite andb_false_iff, !Z.leb_gt. tauto.
Qed.

(** Under [Trap], with the elements in the range of [int] and the
    reads inside the array, only the sum can stop the loop. *)
Lemma array_loop_undefined (arr : list Z) n :
  Array.int_array arr -> 0 <= n <= Z.of_nat (length arr) -> n <= SIZE_MAX ->
  forall fuel s,
    array_inv arr s -> Array.i s <= n ->
    while (Array.loop_cond n) (Array.loop_body Trap arr) fuel s = Undefined ->
    LLONG_MAX < Array.exact_sum_of_squares (take (Z.to_nat n) arr).
Proof.
  intros Hint Hn Hsize. induction fuel as [|fuel IH]; intros s [Hi Hr] Hin.
  { cbn. destruct (Array.loop_cond n s); discriminate. }
  rewrite while_unfold. unfold Array.loop_cond at 1.
  destruct (Array.i s <? n) eqn:Hc; [|discriminate]. apply Z.ltb_lt in Hc.
  destruct (lookup_lt_is_Some_2 arr (Z.to_nat (Array.i s))) as [a Ea]; [lia|].
  unfold Array.loop_body.
  rewrite Ea, (square_of_int Trap a (int_array_lookup _ _ _ Hint Ea)).
  pose proof (exact_sum_take_S arr _ a Ea) as ES.
  pose proof (exact_sum_nonneg (take (S (Z.to_nat (Array.i s))) arr)) as H0.
  pose proof (exact_sum_take_le (take (Z.to_nat n) arr) (S (Z.to_nat (Array.i s)))) as Hle.
  rewrite take_take in Hle.
  replace (S (Z.to_nat (Array.i s)) `min` Z.to_nat n)%nat
    with (S (Z.to_nat (Array.i s))) in Hle by lia.
  rewrite size_add_1 by lia.
  destruct (ll_add Trap (Array.result s) (a * a)) as [r|] eqn:Eadd.
  - apply signed_trap_inv in Eadd as [-> _].
    match goal with |- bind (while _ _ _ ?s1) _ = _ -> _ => set (s' := s1) end.
    destruct (while _ _ fuel s') as [?| |] eqn:Ew; try discriminate.
    intros _. apply (IH s'); [|subst s'; cbn; lia|exact Ew].
    subst s'. unfold array_inv. cbn [Array.i Array.result].
    replace (Z.to_nat (Array.i s + 1)) with (S (Z.to_nat (Array.i s))) by lia.
    split; lia.
  - intros _. unfold ll_add, signed in Eadd.
    destruct (fits 64 _) eqn:Ef; [discriminate|].
    apply fits_false in Ef. unfold LLONG_MAX. lia.
Qed.

(** C9: each squared term is exact.  For every [a] in the range of
    [int], [INT_MIN] included, the product [(long long)a * a] is the
    integer [a * a], at most [2^62], under either overflow convention;
    so when a run on an array of [int] stops on an overflow, it is the
    running sum that left the range of [long long]. *)
Theorem square_term_exact ov fuel (arr : list Z) n a :
  is_int a ->
  Array.int_array arr -> 0 <= n <= Z.of_nat (length arr) -> n <= SIZE_MAX ->
  Array.square ov a = Some (a * a)
  /\ 0 <= a * a <= 2 ^ 62
  /\ is_llong (a * a)
  /\ (Array.sum_of_squares Trap fuel arr n = Undefined ->
      LLONG_MAX < Array.exact_sum_of_squares (take (Z.to_nat n) arr)).
Proof.
  intros Ha Hint Hn Hsize. pose proof (int_square_bounds a Ha) as Hb.
  split; [now apply square_of_int|]. split; [exact Hb|].
  split; [unfold is_llong, LLONG_MIN, LLONG_MAX; lia|].
  unfold Array.sum_of_squares, Array.sum_of_squares_run, Array.loop.
  destruct (while _ _ fuel Array.loop_init) as [r| |] eqn:Ew; try discriminate.
  intros _. apply (array_loop_undefined arr n Hint Hn Hsize fuel _) in Ew.
  - exact Ew.
  - split; cbn; [lia | reflexivity].
  - cbn. lia.
Qed.

Lemma square_term_exact_witness :
  Array.square Trap INT_MIN = Some (2 ^ 62)
  /\ Array.sum_of_squares Trap 2 [INT_MIN; INT_MIN] 2 = Undefined
  /\ LLONG_MAX < Array.exact_sum_of_squares (take (Z.to_nat 2) [INT_MIN; INT_MIN]).
Proof.
  assert (Ha : is_int INT_MIN) by (vm_compute; split; discriminate).
  assert (Harr : Array.int_array [INT_MIN; INT_MIN]) by (repeat constructor; discriminate).
  assert (Hn : 0 <= 2 <= Z.of_nat (length [INT_MIN; INT_MIN])) by (vm_compute; split; discriminate).
  assert (Hs : 2 <= SIZE_MAX) by (vm_compute; discriminate).
  pose proof (square_term_exact Trap 2 [INT_MIN; INT_MIN] 2 INT_MIN Ha Harr Hn Hs)
    as (H1 & _ & _ & H4).
  split; [exact H1|]. split; [reflexivity|]. apply H4. reflexivity.
Defined.

(** With wrap-around, the loop of [sum_of_squares] exits after [n]
    iterations whenever the array has [n] elements to read. *)
Lemma array_run_wrap_terminates fuel (arr : list Z) n :
  0 <= n <= Z.of_nat (length arr) -> n <= SIZE_MAX -> (Z.to_nat n <= fuel)%nat ->
  exists v, Array.sum_of_squares_run Wrap fuel arr n = Ret (Z.to_nat n, v).
Proof.
  intros Hn Hsize Hfuel.
  destruct (while_exact (Array.loop_cond n) (Array.loop_body Wrap arr)
              (fun s => 0 <= Array.i s <= n) (array_left n)) with
    (fuel := fuel) (s := Array.loop_init) as (s' & Ew & _ & _).
  - unfold Array.loop_cond, array_left. intros s Hs Hc. apply Z.ltb_ge in Hc. lia.
  - unfold Array.loop_cond, array_left. intros s Hs Hc. apply Z.ltb_lt in Hc.
    unfold Array.loop_body.
    destruct (lookup_lt_is_Some_2 arr (Z.to_nat (Array.i s))) as [a Ea]; [lia|].
    rewrite Ea. unfold Array.square, ll_mul.
    destruct (signed_wrap_total 64 (a * a)) as [sq ->].
    unfold ll_add. destruct (signed_wrap_total 64 (Array.result s + sq)) as [r ->].
    rewrite size_add_1 by lia.
    eexists. split; [reflexivity|]. cbn [Array.i]. lia.
  - cbn. lia.
  - unfold array_left. cbn. lia.
  - unfold Array.sum_of_squares_run, Array.loop. rewrite Ew. cbn [bind fst snd].
    eexists. do 2 f_equal. unfold array_left. cbn. lia.
Qed.

(** ** Termination of the two loops *)

(** A body that does less cannot run longer. *)
Lemma while_body_halts {St} (cond : St -> bool) (body1 body2 : St -> option St) :
  (forall s s', body1 s = Some s' -> body2 s = Some s') ->
  forall fuel s r,
    while cond body2 fuel s = Ret r -> while cond body1 fuel s <> Timeout.
Proof.
  intros Hb. induction fuel as [|fuel IH]; intros s r.
  - cbn. destruct (cond s); discriminate.
  - rewrite !while_unfold. destruct (cond s); [|discriminate].
    destruct (body1 s) as [s'|] eqn:E1; [|discriminate].
    rewrite (Hb _ _ E1).
    destruct (while cond body2 fuel s') as [r'| |] eqn:E2; try discriminate.
    intros _. specialize (IH s' r' E2).
    destruct (while cond body1 fuel s'); [discriminate | discriminate | congruence].
Qed.

Lemma array_body_trap_any ov arr s s' :
  Array.loop_body Trap arr s = Some s' -> Array.loop_body ov arr s = Some s'.
Proof.
  unfold Array.loop_body, Array.square, ll_mul, ll_add.
  destruct (arr !! _) as [a|]; [|discriminate].
  destruct (signed Trap 64 (a * a)) as [sq|] eqn:E1; [|discriminate].
  rewrite (signed_trap_any ov _ _ _ E1).
  destruct (signed Trap 64 (_ + sq)) as [r|] eqn:E2; [|discriminate].
  now rewrite (signed_trap_any ov _ _ _ E2).
Qed.

Lemma array_run_halts ov fuel (arr : list Z) n :
  0 <= n <= Z.of_nat (length arr) -> n <= SIZE_MAX -> (Z.to_nat n <= fuel)%nat ->
  Array.sum_of_squares_run ov fuel arr n <> Timeout.
Proof.
  intros Hn Hsize Hfuel.
  destruct (array_run_wrap_terminates fuel arr n Hn Hsize Hfuel) as [v Hv].
  destruct ov; [|now rewrite Hv].
  unfold Array.sum_of_squares_run, Array.loop in *.
  destruct (while _ (Array.loop_body Wrap arr) fuel _) as [r| |] eqn:Ew;
    try discriminate.
  apply (while_body_halts _ (Array.loop_body Trap arr)) in Ew;
    [|apply array_body_trap_any].
  destruct (while _ (Array.loop_body Trap arr) fuel _); [discriminate | discriminate | congruence].
Qed.

Lemma fib_run_halts ov fuel n :
  n < INT_MAX -> (Z.to_nat (n - 1) <= fuel)%nat ->
  Fib.fibonacci_iterative_run ov fuel n <> Timeout.
Proof.
  intros Hn Hfuel.
  destruct (fib_run_wrap_terminates fuel n Hn Hfuel) as [v Hv].
  destruct ov; [|now rewrite Hv].
  unfold Fib.fibonacci_iterative_run, Fib.loop in *.
  destruct (n <=? 1); [discriminate|].
  destruct (while _ (Fib.loop_body Wrap) fuel _) as [r| |] eqn:Ew;
    try discriminate.
  apply (while_body_halts _ (Fib.loop_body Trap)) in Ew;
    [|apply fib_body_trap_any].
  destruct (while _ (Fib.loop_body Trap) fuel _); [discriminate | discriminate | congruence].
Qed.

(** C10, as the code has it: both loops halt.  [sum_of_squares] on an
    array with at least [n] elements, and [fibonacci_iterative] on
    every [m] below [INT_MAX], negative ones included, return under
    wrap-around after exactly [n] and [max 0 (m - 1)] iterations of
    their loops; under either overflow convention the run ends within
    that many iterations (with the value, or at the overflow). *)
Theorem loops_terminate fuel (arr : list Z) n m :
  0 <= n <= Z.of_nat (length arr) -> n <= SIZE_MAX -> m < INT_MAX ->
  (Z.to_nat n <= fuel)%nat -> (Z.to_nat (m - 1) <= fuel)%nat ->
  (exists v, Array.sum_of_squares_run Wrap fuel arr n = Ret (Z.to_nat n, v))
  /\ (exists v, Fib.fibonacci_iterative_run Wrap fuel m = Ret (Z.to_nat (m - 1), v))
  /\ (forall ov, Array.sum_of_squares_run ov fuel arr n <> Timeout)
  /\ (forall ov, Fib.fibonacci_iterative_run ov fuel m <> Timeout).
Proof.
  intros Hn Hsize Hm Hf1 Hf2.
  split; [now apply array_run_wrap_terminates|].
  split; [now apply fib_run_wrap_terminates|].
  split; intros ov; [now apply array_run_halts | now apply fib_run_halts].
Qed.

Lemma loops_terminate_witness :
  (exists v, Array.sum_of_squares_run Wrap 100 [INT_MIN; INT_MIN; 3] 3
             = Ret (Z.to_nat 3, v))
  /\ (exists v, Fib.fibonacci_iterative_run Wrap 100 95 = Ret (Z.to_nat (95 - 1), v))
  /\ (forall ov, Array.sum_of_squares_run ov 100 [INT_MIN; INT_MIN; 3] 3 <> Timeout)
  /\ (forall ov, Fib.fibonacci_iterative_run ov 100 95 <> Timeout).
Proof.
  apply (loops_terminate 100 [INT_MIN; INT_MIN; 3] 3 95).
  - vm_compute. split; discriminate.
  - vm_compute. discriminate.
  - vm_compute. reflexivity.
  - vm_compute. lia.
  - vm_compute. lia.
Defined.

(** C10, as stated, fails at [n = INT_MAX], an [int] like any other:
    no iteration bound and no overflow convention lets
    [fibonacci_iterative INT_MAX] return. *)
Lemma fibonacci_iterative_INT_MAX_never_returns :
  is_int INT_MAX
  /\ ~ (exists ov fuel r, Fib.fibonacci_iterative_run ov fuel INT_MAX = Ret r)
  /\ ~ (exists ov fuel v, Fib.fibonacci_iterative ov fuel INT_MAX = Ret v).
Proof.
  split; [vm_compute; split; discriminate|]. split.
  - intros (ov & fuel & r & H). exact (fib_run_INT_MAX ov fuel r H).
  - intros (ov & fuel & v & H). apply fib_value_inv in H as [k H].
    exact (fib_run_INT_MAX ov fuel _ H).
Qed.

(** ** string_lib.c *)

Import StringLib.

Lemma is_nul_spec c : is_nul c = true <-> c = x00.
Proof. split; [destruct c; (reflexivity || discriminate) | now intros ->]. Qed.

(** What [scan] returns holds no NUL, and is followed by one. *)
Lemma scan_spec cs s :
  scan cs = Some s <->
  Forall (fun c => is_nul c = false) s /\
  exists rest, cs = (Some <$> (s ++ [x00])) ++ rest.
Proof.
  split.
  - revert s. induction cs as [|[c|] cs IH]; intros s; cbn [scan]; try discriminate.
    destruct (is_nul c) eqn:Ec.
    + intros [= <-]. apply is_nul_spec in Ec as ->.
      split; [constructor | now exists cs].
    + destruct (scan cs) as [s'|]; [|discriminate]. intros [= <-].
      destruct (IH s' eq_refl) as [Hs [rest ->]].
      split; [now constructor | now exists rest].
  - revert cs. induction s as [|c s IH]; intros cs [Hs [rest ->]].
    + reflexivity.
    + apply Forall_cons in Hs as [Hc Hs]. cbn. rewrite Hc.
      now rewrite (IH _ (conj Hs (ex_intro _ rest eq_refl))).
Qed.

Lemma scan_length cs s : scan cs = Some s -> (length s < length cs)%nat.
Proof.
  intros H. apply scan_spec in H as [_ [rest ->]].
  rewrite length_app, length_fmap, length_app. cbn. lia.
Qed.

Lemma size_of_string len :
  0 <= len < SIZE_MAX -> size_mul (size_add len 1) sizeof_char = len + 1.
Proof.
  intros H. unfold size_mul, sizeof_char. rewrite size_add_1 by assumption.
  rewrite Z.mul_1_r. apply Z.mod_small. unfold SIZE_MAX in H. lia.
Qed.

Lemma malloc_fresh (m : mem) : m !! fresh (dom m) = None.
Proof. apply not_elem_of_dom, is_fresh. Qed.

(** The block a string lives in is not the one [malloc] returns. *)
Lemma load_string_other (m : mem) p s b blk :
  m !! b = None -> load_string m p = Some s ->
  load_string (<[b := blk]> m) p = Some s /\ overlap (Ptr b 0) p (length s + 1) = false.
Proof.
  intros Hb. destruct p as [|bi oi]; [discriminate|]. cbn [load_string overlap].
  destruct (m !! bi) as [blki|] eqn:Ei; [|discriminate].
  assert (b <> bi) by congruence.
  rewrite lookup_insert_ne, Ei by assumption. intros ->. split; [reflexivity|].
  now rewrite (proj2 (Nat.eqb_neq b bi)).
Qed.

Lemma create_string_success (m : mem) input s :
  load_string m input = Some s -> Z.of_nat (length s) < SIZE_MAX ->
  create_string true input m
  = Ret (Ptr (fresh (dom m)) 0,
         <[fresh (dom m) := Block (Some <$> (s ++ [x00])) true]> m).
Proof.
  intros Hs Hlen. unfold create_string, strlen. rewrite Hs.
  rewrite size_of_string by lia. unfold malloc.
  set (b := fresh (dom m)).
  destruct (load_string_other m input s b
              (Block (replicate (Z.to_nat (Z.of_nat (length s) + 1)) None) true)
              (malloc_fresh m) Hs) as [Hs1 Hov].
  unfold strcpy. rewrite Hs1, Hov. unfold store.
  rewrite lookup_insert_eq. cbn [cells on_heap].
  rewrite length_replicate, length_app. cbn [length].
  replace (Z.to_nat (Z.of_nat (length s) + 1)) with (length s + 1)%nat by lia.
  rewrite Nat.add_0_l, Nat.leb_refl, insert_insert_eq.
  rewrite take_0, drop_ge by (rewrite length_replicate; lia).
  now rewrite app_nil_l, app_nil_r.
Qed.

(** C3: for every string [s] that [input] designates (the bytes up to
    the first NUL of a live object), when the allocation succeeds
    [create_string input] returns a pointer to the start of an object
    that did not exist before and that [malloc] made, of exactly
    [length s + 1] bytes: those of [s], then the NUL.  Every other object,
    the one holding the input among them, is as it was, and the result
    is not a pointer into it.  ([length s < SIZE_MAX]: the string with
    its terminator is an object, which a [size_t] can measure.) *)
Theorem create_string_copies (m : mem) input s :
  load_string m input = Some s -> Z.of_nat (length s) < SIZE_MAX ->
  exists b m',
    create_string true input m = Ret (Ptr b 0, m')
    /\ m !! b = None
    /\ m' !! b = Some (Block (Some <$> (s ++ [x00])) true)
    /\ length (Some <$> (s ++ [x00]) : list cell) = S (length s)
    /\ load_string m' (Ptr b 0) = Some s
    /\ (forall b', b' <> b -> m' !! b' = m !! b')
    /\ load_string m' input = Some s
    /\ (forall bi oi, input = Ptr bi oi -> bi <> b).
Proof.
  intros Hs Hlen. exists (fresh (dom m)). eexists.
  split; [exact (create_string_success m input s Hs Hlen)|].
  pose proof (malloc_fresh m) as Hb.
  split; [exact Hb|]. split; [apply lookup_insert_eq|].
  split; [rewrite length_fmap, length_app; cbn; lia|].
  split.
  - cbn [load_string]. rewrite lookup_insert_eq. cbn [cells drop].
    destruct input as [|bi oi]; [discriminate|]. cbn [load_string] in Hs.
    destruct (m !! bi); [|discriminate].
    apply scan_spec in Hs as [Hnn _]. apply scan_spec.
    split; [exact Hnn | exists []; now rewrite app_nil_r].
  - split; [intros b' Hne; now apply lookup_insert_ne|].
    split; [now apply (load_string_other m input s _ _ Hb Hs)|].
    intros bi oi ->. cbn [load_string] in Hs. intros ->.
    now rewrite Hb in Hs.
Qed.

Lemma create_string_copies_witness :
  exists b m',
    create_string true (Ptr 7 0) {[ 7%nat := literal hello ]} = Ret (Ptr b 0, m')
    /\ ({[ 7%nat := literal hello ]} : mem) !! b = None
    /\ m' !! b = Some (Block (Some <$> (hello ++ [x00])) true)
    /\ length (Some <$> (hello ++ [x00]) : list cell) = S (length hello)
    /\ load_string m' (Ptr b 0) = Some hello
    /\ (forall b', b' <> b -> m' !! b' = ({[ 7%nat := literal hello ]} : mem) !! b')
    /\ load_string m' (Ptr 7 0) = Some hello
    /\ (forall bi oi, Ptr 7 0 = Ptr bi oi -> bi <> b).
Proof.
  apply (create_string_copies {[ 7%nat := literal hello ]} (Ptr 7 0) hello).
  - vm_compute. reflexivity.
  - vm_compute. reflexivity.
Defined.

(** Releasing what [create_string] returned gives the memory back. *)
Lemma free_string_create_string (m : mem) input s :
  load_string m input = Some s -> Z.of_nat (length s) < SIZE_MAX ->
  exists p m',
    create_string true input m = Ret (p, m') /\ free_string p m' = Ret m.
Proof.
  intros Hs Hlen. do 2 eexists.
  split; [exact (create_string_success m input s Hs Hlen)|].
  cbn [free_string free lift]. rewrite lookup_insert_eq. cbn.
  now rewrite delete_insert_eq, delete_id by apply malloc_fresh.
Qed.

(** C4: for every input string, when the allocation fails
    [create_string] returns the null pointer and leaves the memory as
    it was (nothing is copied); and a null result means exactly that:
    whenever [create_string] returns, its result is null if and only if
    the allocation failed, and then the memory is unchanged. *)
Theorem create_string_alloc_failure (m : mem) input s :
  load_string m input = Some s ->
  create_string false input m = Ret (NULL, m)
  /\ (forall ok p m',
        create_string ok input m = Ret (p, m') ->
        (p = NULL <-> ok = false) /\ (p = NULL -> m' = m)).
Proof.
  intros Hs. unfold create_string, strlen. rewrite Hs.
  split; [reflexivity|]. intros [|] p m'; unfold malloc.
  - destruct (strcpy _ _ _); [|discriminate]. intros [= <- <-].
    split; [split; discriminate | discriminate].
  - intros [= <- <-]. repeat split; reflexivity.
Qed.

Lemma create_string_alloc_failure_witness :
  create_string false (Ptr 7 0) {[ 7%nat := literal hello ]}
  = Ret (NULL, {[ 7%nat := literal hello ]})
  /\ (forall ok p m',
        create_string ok (Ptr 7 0) {[ 7%nat := literal hello ]} = Ret (p, m') ->
        (p = NULL <-> ok = false) /\ (p = NULL -> m' = {[ 7%nat := literal hello ]})).
Proof.
  apply (create_string_alloc_failure {[ 7%nat := literal hello ]} (Ptr 7 0) hello).
  vm_compute. reflexivity.
Defined.

(** C5: [free_string] on the null pointer returns with the memory as
    it was: nothing is released and nothing is undefined, whatever the
    memory holds. *)
Theorem free_string_null (m : mem) :
  free_string NULL m = Ret m
  /\ forall m', free_string NULL m = Ret m' -> dom m' = dom m.
Proof. split; [reflexivity|]. now intros m' [= <-]. Qed.

(** ** fib.c in the state of the program *)

Lemma store_get_set_eq x v st : FibStore.get x (FibStore.set x v st) = v.
Proof. unfold FibStore.get, FibStore.set. cbn. now rewrite String.eqb_refl. Qed.

Lemma store_set_other x v st y :
  y <> x -> FibStore.vars (FibStore.set x v st) y = FibStore.vars st y.
Proof.
  intros H. unfold FibStore.set. cbn.
  now rewrite (proj2 (String.eqb_neq y x) H).
Qed.

Lemma frame_refl st : FibStore.frame st st.
Proof. split; auto. Qed.

Lemma frame_trans st1 st2 st3 :
  FibStore.frame st1 st2 -> FibStore.frame st2 st3 -> FibStore.frame st1 st3.
Proof.
  intros [H1 K1] [H2 K2]. split; [congruence|].
  intros x Hx. now rewrite K2, K1.
Qed.

(** Assigning one of the function's own variables stays in the frame. *)
Lemma frame_set x v st : In x FibStore.own -> FibStore.frame st (FibStore.set x v st).
Proof.
  intros Hx. split; [reflexivity|]. intros y Hy.
  apply store_set_other. intros ->. now apply Hy.
Qed.

(** One iteration on the state is one iteration on the locals, and
    touches nothing else. *)
Lemma store_body_sim ov st :
  match FibStore.loop_body ov st with
  | Some st' =>
      Fib.loop_body ov (FibStore.project st) = Some (FibStore.project st')
      /\ FibStore.get "n" st' = FibStore.get "n" st
      /\ FibStore.frame st st'
  | None => Fib.loop_body ov (FibStore.project st) = None
  end.
Proof.
  unfold FibStore.loop_body, Fib.loop_body, FibStore.project.
  cbn [Fib.prev Fib.current Fib.i].
  destruct (ll_add ov _ _) as [next|]; [|reflexivity].
  change (FibStore.get "i" (FibStore.set "current" _ _)) with (FibStore.get "i" st).
  destruct (int_add ov _ 1) as [i'|]; [|reflexivity].
  split; [reflexivity|]. split; [reflexivity|].
  repeat (eapply frame_trans; [|apply frame_set; cbn; tauto]).
  apply frame_refl.
Qed.

Lemma store_loop_sim ov fuel : forall st,
  match while FibStore.loop_cond (FibStore.loop_body ov) fuel st with
  | Ret (k, st') =>
      while (Fib.loop_cond (FibStore.get "n" st)) (Fib.loop_body ov) fuel
        (FibStore.project st) = Ret (k, FibStore.project st')
      /\ FibStore.frame st st'
  | Undefined =>
      while (Fib.loop_cond (FibStore.get "n" st)) (Fib.loop_body ov) fuel
        (FibStore.project st) = Undefined
  | Timeout =>
      while (Fib.loop_cond (FibStore.get "n" st)) (Fib.loop_body ov) fuel
        (FibStore.project st) = Timeout
  end.
Proof.
  induction fuel as [|fuel IH]; intros st.
  - cbn [while].
    change (Fib.loop_cond (FibStore.get "n" st) (FibStore.project st))
      with (FibStore.loop_cond st).
    destruct (FibStore.loop_cond st); [reflexivity|].
    split; [reflexivity | apply frame_refl].
  - rewrite !while_unfold.
    change (Fib.loop_cond (FibStore.get "n" st) (FibStore.project st))
      with (FibStore.loop_cond st).
    destruct (FibStore.loop_cond st); [|split; [reflexivity | apply frame_refl]].
    pose proof (store_body_sim ov st) as Hb.
    destruct (FibStore.loop_body ov st) as [st1|]; [|now rewrite Hb].
    destruct Hb as (-> & En & Hf1). specialize (IH st1). rewrite En in IH.
    destruct (while FibStore.loop_cond _ fuel st1) as [[k st']| |];
      cbn [bind fst snd].
    + destruct IH as [-> Hf2]. split; [reflexivity|].
      exact (frame_trans _ _ _ Hf1 Hf2).
    + now rewrite IH.
    + now rewrite IH.
Qed.

(** The call on the state computes what the call on the locals
    computes, and leaves a state in the frame of the one it started
    from. *)
Lemma store_call_sim ov fuel n st :
  FibStore.value_of (FibStore.fibonacci_iterative ov fuel n st)
  = Fib.fibonacci_iterative ov fuel n
  /\ forall v st',
      FibStore.fibonacci_iterative ov fuel n st = Ret (v, st') ->
      FibStore.frame st st'.
Proof.
  unfold FibStore.fibonacci_iterative, Fib.fibonacci_iterative,
    Fib.fibonacci_iterative_run, Fib.loop, FibStore.value_of.
  rewrite store_get_set_eq.
  assert (F0 : FibStore.frame st (FibStore.set "n" n st))
    by (apply frame_set; cbn; tauto).
  destruct (n <=? 1).
  { split; [reflexivity|]. now intros v st' [= _ <-]. }
  set (st3 := FibStore.set "i" 2 _).
  assert (F3 : FibStore.frame st st3).
  { subst st3. repeat (eapply frame_trans; [|apply frame_set; cbn; tauto]).
    apply frame_refl. }
  pose proof (store_loop_sim ov fuel st3) as Hs.
  change (FibStore.get "n" st3) with n in Hs.
  change (FibStore.project st3) with Fib.loop_init in Hs.
  destruct (while FibStore.loop_cond _ fuel st3) as [[k st']| |].
  - destruct Hs as [-> Hf]. cbn [bind fst snd Fib.current FibStore.project].
    split; [reflexivity|]. intros v st'' [= _ <-].
    exact (frame_trans _ _ _ F3 Hf).
  - rewrite Hs. split; [reflexivity | discriminate].
  - rewrite Hs. split; [reflexivity | discriminate].
Qed.

(** C7: [fibonacci_iterative] is deterministic and has no side effects.
    Run from any two states of the program (any values of every
    variable, its own included, and any memory), two calls with the
    same [n] have the same outcome, the one the function of [n] alone
    has; whenever a call returns, the memory and every variable other
    than the function's own [n], [prev], [current], [i], [next] are as
    they were, and a second call from the state it leaves returns the
    same value.  For every index [n >= 0] whose Fibonacci number fits a
    [long long] the call does return, with [F n]. *)
Theorem fibonacci_iterative_pure ov fuel n (st1 st2 : FibStore.state) :
  FibStore.value_of (FibStore.fibonacci_iterative ov fuel n st1)
  = FibStore.value_of (FibStore.fibonacci_iterative ov fuel n st2)
  /\ FibStore.value_of (FibStore.fibonacci_iterative ov fuel n st1)
     = Fib.fibonacci_iterative ov fuel n
  /\ (forall v st',
        FibStore.fibonacci_iterative ov fuel n st1 = Ret (v, st') ->
        FibStore.heap st' = FibStore.heap st1
        /\ (forall x, ~ In x FibStore.own -> FibStore.vars st' x = FibStore.vars st1 x)
        /\ FibStore.value_of (FibStore.fibonacci_iterative ov fuel n st') = Ret v)
  /\ (0 <= n -> Fib.F (Z.to_nat n) <= LLONG_MAX -> (Z.to_nat n - 1 <= fuel)%nat ->
      exists st',
        FibStore.fibonacci_iterative ov fuel n st1 = Ret (Fib.F (Z.to_nat n), st')).
Proof.
  destruct (store_call_sim ov fuel n st1) as [E1 Hf1].
  destruct (store_call_sim ov fuel n st2) as [E2 _].
  split; [congruence|]. split; [exact E1|]. split.
  - intros v st' Hr. destruct (Hf1 v st' Hr) as [Hh Hv].
    split; [exact Hh|]. split; [exact Hv|].
    destruct (store_call_sim ov fuel n st') as [E' _].
    rewrite E', <- E1, Hr. reflexivity.
  - intros Hn Hfit Hfuel.
    pose proof (fib_value _ _ _ _ _ (fib_run_exact ov fuel n Hn Hfit Hfuel)) as Hv.
    rewrite <- E1 in Hv. unfold FibStore.value_of in Hv.
    destruct (FibStore.fibonacci_iterative ov fuel n st1) as [[v st']| |];
      try discriminate.
    cbn in Hv. injection Hv as ->. now exists st'.
Qed.

Lemma fibonacci_iterative_pure_witness :
  exists st',
    FibStore.fibonacci_iterative Trap 9 10
      (FibStore.State (fun _ => 77) {[ 7%nat := StringLib.literal StringLib.hello ]})
    = Ret (Fib.F (Z.to_nat 10), st').
Proof.
  refine (proj2 (proj2 (proj2
            (fibonacci_iterative_pure Trap 9 10
               (FibStore.State (fun _ => 77)
                  {[ 7%nat := StringLib.literal StringLib.hello ]})
               (FibStore.State (fun _ => 0) ∅)))) _ _ _).
  - lia.
  - vm_compute. discriminate.
  - vm_compute. lia.
Defined.

(** * Further properties of the three files *)

(** ** Loops, continued *)

(** Partial correctness: an invariant that the body keeps holds at the
    exit, where the condition is false. *)
Lemma while_returns {St} (cond : St -> bool) body (I : St -> Prop) :
  (forall s s', I s -> cond s = true -> body s = Some s' -> I s') ->
  forall fuel s k s',
    I s -> while cond body fuel s = Ret (k, s') -> I s' /\ cond s' = false.
Proof.
  intros Hb. induction fuel as [|fuel IH]; intros s k s' Hs.
  - cbn. destruct (cond s) eqn:Ec; [discriminate|]. now intros [= _ <-].
  - rewrite while_unfold. destruct (cond s) eqn:Ec; [|now intros [= _ <-]].
    destruct (body s) as [s1|] eqn:Eb; [|discriminate].
    destruct (while cond body fuel s1) as [[k1 s2]| |] eqn:Ew; try discriminate.
    cbn. intros [= _ <-]. exact (IH s1 k1 s2 (Hb _ _ Hs Ec Eb) Ew).
Qed.

(** A loop that cannot leave an invariant on which its condition holds,
    and whose body either fails or counts a measure down, fails. *)
Lemma while_fails {St} (cond : St -> bool) body (I : St -> Prop) (mu : St -> nat) :
  (forall s, I s -> cond s = true) ->
  (forall s, I s ->
             body s = None \/
             exists s', body s = Some s' /\ I s' /\ (mu s' < mu s)%nat) ->
  forall fuel s, I s -> (mu s < fuel)%nat -> while cond body fuel s = Undefined.
Proof.
  intros Hc Hb. induction fuel as [|fuel IH]; intros s Hs Hmu; [lia|].
  rewrite while_unfold, (Hc s Hs).
  destruct (Hb s Hs) as [-> | (s' & -> & Hs' & Hlt)]; [reflexivity|].
  rewrite (IH s' Hs'); [reflexivity | lia].
Qed.

(** Two bodies that agree wherever the loop goes give the same run. *)
Lemma while_agree {St} (cond : St -> bool) body1 body2 (I : St -> Prop) :
  (forall s, I s -> cond s = true -> body1 s = body2 s) ->
  (forall s s', I s -> cond s = true -> body1 s = Some s' -> I s') ->
  forall fuel s, I s -> while cond body1 fuel s = while cond body2 fuel s.
Proof.
  intros He Hb. induction fuel as [|fuel IH]; intros s Hs; [reflexivity|].
  rewrite !while_unfold. destruct (cond s) eqn:Ec; [|reflexivity].
  rewrite <- (He s Hs Ec). destruct (body1 s) as [s'|] eqn:Eb; [|reflexivity].
  now rewrite (IH s' (Hb _ _ Hs Ec Eb)).
Qed.

(** ** Two's complement *)

Lemma wrap_fits bits z :
  - 2 ^ (bits - 1) <= z <= 2 ^ (bits - 1) - 1 -> 0 < bits -> wrap bits z = z.
Proof.
  intros H Hb. unfold wrap.
  assert (E : 2 ^ bits = 2 * 2 ^ (bits - 1)).
  { replace bits with (Z.succ (bits - 1)) at 1 by lia.
    rewrite Z.pow_succ_r by lia. reflexivity. }
  rewrite Z.mod_small by lia. lia.
Qed.

Lemma signed_wrap bits z : 0 < bits -> signed Wrap bits z = Some (wrap bits z).
Proof.
  intros Hb. unfold signed. destruct (fits bits z) eqn:E; [|reflexivity].
  apply fits_spec in E. now rewrite wrap_fits.
Qed.

Lemma wrap_add bits a b :
  wrap bits (wrap bits a + wrap bits b) = wrap bits (a + b).
Proof.
  unfold wrap. f_equal.
  replace ((a + 2 ^ (bits - 1)) mod 2 ^ bits - 2 ^ (bits - 1)
           + ((b + 2 ^ (bits - 1)) mod 2 ^ bits - 2 ^ (bits - 1)) + 2 ^ (bits - 1))
    with ((a + 2 ^ (bits - 1)) mod 2 ^ bits
          + ((b + 2 ^ (bits - 1)) mod 2 ^ bits - 2 ^ (bits - 1))) by lia.
  rewrite Zplus_mod_idemp_l.
  replace (a + 2 ^ (bits - 1) + ((b + 2 ^ (bits - 1)) mod 2 ^ bits - 2 ^ (bits - 1)))
    with ((b + 2 ^ (bits - 1)) mod 2 ^ bits + a) by lia.
  rewrite Zplus_mod_idemp_l. f_equal. lia.
Qed.

Lemma wrap_add_r bits a b :
  - 2 ^ (bits - 1) <= b <= 2 ^ (bits - 1) - 1 -> 0 < bits ->
  wrap bits (wrap bits a + b) = wrap bits (a + b).
Proof.
  intros H Hb. rewrite <- (wrap_fits bits b H Hb) at 1. apply wrap_add.
Qed.

(** ** fib.c, beyond the range of [long long] *)

Lemma F_92 : Fib.F 92 <= LLONG_MAX.
Proof. rewrite <- (F_pair_fst 92). now vm_compute. Qed.

Lemma fib_loop_wraps (N : nat) fuel :
  (2 <= N)%nat -> Z.of_nat N < INT_MAX -> (N - 1 <= fuel)%nat ->
  Fib.loop Wrap fuel (Z.of_nat N)
  = Ret ((N - 1)%nat,
         Fib.Locals (Z.of_nat N + 1) (wrap 64 (Fib.F (N - 1))) (wrap 64 (Fib.F N))).
Proof.
  intros HN Hmax Hfuel.
  destruct (while_exact (Fib.loop_cond (Z.of_nat N)) (Fib.loop_body Wrap)
              (fun s => exists j : nat,
                   (S j <= N)%nat /\ Fib.i s = 2 + Z.of_nat j /\
                   Fib.prev s = wrap 64 (Fib.F j) /\
                   Fib.current s = wrap 64 (Fib.F (S j)))
              (fib_left (Z.of_nat N))) with
    (fuel := fuel) (s := Fib.loop_init)
    as (s' & Ew & (j & Hj & Ei & Ep & Ec) & Hc).
  - intros s (j & Hj & Ei & _) Hc. unfold Fib.loop_cond in Hc.
    apply Z.leb_gt in Hc. unfold fib_left. lia.
  - intros s (j & Hj & Ei & Ep & Ec) Hc. unfold Fib.loop_cond in Hc.
    apply Z.leb_le in Hc. unfold Fib.loop_body, ll_add.
    rewrite signed_wrap by lia.
    rewrite int_add_fits by (unfold is_int, INT_MIN, INT_MAX in *; lia).
    eexists. split; [reflexivity|]. split.
    + exists (S j). cbn [Fib.i Fib.prev Fib.current].
      repeat split; try lia.
      rewrite Ep, Ec, wrap_add, F_step. f_equal. lia.
    + unfold fib_left. cbn [Fib.i]. lia.
  - exists 0%nat. cbn. repeat split; lia.
  - unfold fib_left. cbn. lia.
  - unfold Fib.loop_cond in Hc. apply Z.leb_gt in Hc.
    assert (j = N - 1)%nat as -> by lia.
    unfold Fib.loop. rewrite Ew. f_equal. f_equal.
    + unfold fib_left. cbn. lia.
    + destruct s' as [i' p' c']. cbn [Fib.i Fib.prev Fib.current] in *. subst.
      replace (S (N - 1)) with N by lia. f_equal. lia.
Qed.

(** On a target where signed arithmetic wraps, [fibonacci_iterative n]
    returns, for every [n] from [0] up to [INT_MAX - 1], the Fibonacci
    number [F n] reduced to the two's complement range of [long long]:
    beyond [n = 92] the value is the low 64 bits of [F n], read as
    signed. *)
Theorem fibonacci_iterative_wraps fuel n :
  0 <= n < INT_MAX -> (Z.to_nat (n - 1) <= fuel)%nat ->
  Fib.fibonacci_iterative Wrap fuel n = Ret (wrap 64 (Fib.F (Z.to_nat n))).
Proof.
  intros Hn Hfuel. destruct (Z.le_gt_cases n 1) as [H1|H1].
  - rewrite (fib_value _ _ _ _ _ (fib_run_small Wrap fuel n H1)).
    assert (n = 0 \/ n = 1) as [-> | ->] by lia; reflexivity.
  - unfold Fib.fibonacci_iterative, Fib.fibonacci_iterative_run.
    apply Z.leb_gt in H1 as E. rewrite E.
    pose proof (fib_loop_wraps (Z.to_nat n) fuel) as El.
    rewrite Z2Nat.id in El by lia. rewrite El by lia. reflexivity.
Qed.

Lemma fibonacci_iterative_wraps_witness :
  Fib.fibonacci_iterative Wrap 92 93 = Ret (wrap 64 (Fib.F (Z.to_nat 93))).
Proof.
  apply (fibonacci_iterative_wraps 92 93).
  - vm_compute. split; [discriminate | reflexivity].
  - vm_compute. lia.
Defined.

Lemma signed_trap_overflow bits z :
  2 ^ (bits - 1) - 1 < z -> signed Trap bits z = None.
Proof.
  intros H. unfold signed, fits.
  replace (z <=? 2 ^ (bits - 1) - 1) with false by (symmetry; now apply Z.leb_gt).
  now rewrite andb_false_r.
Qed.

Lemma fib_loop_overflows fuel n :
  93 <= n -> (92 <= fuel)%nat -> Fib.loop Trap fuel n = Undefined.
Proof.
  intros Hn Hfuel. unfold Fib.loop.
  apply (while_fails _ _
           (fun s => exists j : nat,
                (j <= 91)%nat /\ Fib.i s = 2 + Z.of_nat j /\
                Fib.prev s = Fib.F j /\ Fib.current s = Fib.F (S j))
           (fun s => Z.to_nat (93 - Fib.i s))).
  - intros s (j & Hj & Ei & _). unfold Fib.loop_cond. apply Z.leb_le. lia.
  - intros s (j & Hj & Ei & Ep & Ec). unfold Fib.loop_body. rewrite Ep, Ec.
    destruct (Nat.eq_dec j 91%nat) as [-> | Hne].
    + left. unfold ll_add. rewrite signed_trap_overflow; [reflexivity|].
      pose proof F_93 as H93. pose proof (F_step 91) as E93.
      unfold LLONG_MAX in H93. lia.
    + right. rewrite ll_add_fits.
      2:{ rewrite Z.add_comm, <- F_step. split.
          - pose proof (F_nonneg (S (S j))). unfold LLONG_MIN. lia.
          - pose proof (F_mono (S (S j)) 92). pose proof F_92. lia. }
      rewrite int_add_fits by (unfold is_int, INT_MIN, INT_MAX; lia).
      eexists. split; [reflexivity|]. split.
      * exists (S j). cbn [Fib.i Fib.prev Fib.current].
        repeat split; try lia. rewrite F_step. lia.
      * cbn [Fib.i]. lia.
  - exists 0%nat. cbn. repeat split; lia.
  - cbn. lia.
Qed.

(** With signed overflow undefined, [n = 92] is the last index
    [fibonacci_iterative] is defined on: for every [n >= 93] the sum
    [prev + current] leaves the range of [long long] in the iteration
    with [i = 93], whatever [n] is. *)
Theorem fibonacci_iterative_overflows fuel n :
  93 <= n -> (92 <= fuel)%nat ->
  Fib.fibonacci_iterative Trap fuel n = Undefined.
Proof.
  intros Hn Hfuel.
  unfold Fib.fibonacci_iterative, Fib.fibonacci_iterative_run.
  replace (n <=? 1) with false by (symmetry; apply Z.leb_gt; lia).
  now rewrite fib_loop_overflows.
Qed.

Lemma fibonacci_iterative_overflows_witness :
  Fib.fibonacci_iterative Trap 92 93 = Undefined
  /\ Fib.fibonacci_iterative Trap 2000 INT_MAX = Undefined.
Proof.
  split.
  - apply (fibonacci_iterative_overflows 92 93); [lia | lia].
  - apply (fibonacci_iterative_overflows 2000 INT_MAX);
      [vm_compute; discriminate | lia].
Defined.

(** ** array.c, at and beyond its preconditions *)

Lemma array_body_prefix ov (arr : list Z) n s :
  0 <= Array.i s < n ->
  Array.loop_body ov (take (Z.to_nat n) arr) s = Array.loop_body ov arr s.
Proof.
  intros Hi. unfold Array.loop_body. now rewrite lookup_take_lt by lia.
Qed.

Lemma array_body_index ov (arr : list Z) s s' :
  Array.loop_body ov arr s = Some s' -> 0 <= Array.i s'.
Proof.
  unfold Array.loop_body.
  destruct (arr !! _) as [a|]; [|discriminate].
  destruct (Array.square ov a) as [sq|]; [|discriminate].
  destruct (ll_add ov _ sq) as [r|]; [|discriminate].
  intros [= <-]. cbn [Array.i]. unfold size_add.
  apply Z.mod_pos_bound. lia.
Qed.

Lemma array_run_prefix ov fuel (arr : list Z) n :
  Array.sum_of_squares_run ov fuel (take (Z.to_nat n) arr) n
  = Array.sum_of_squares_run ov fuel arr n.
Proof.
  unfold Array.sum_of_squares_run, Array.loop. f_equal.
  apply (while_agree _ _ _ (fun s => 0 <= Array.i s)).
  - intros s Hs Hc. unfold Array.loop_cond in Hc. apply Z.ltb_lt in Hc.
    apply array_body_prefix. lia.
  - intros s s' _ _ Hb. exact (array_body_index _ _ _ _ Hb).
  - cbn. lia.
Qed.

(** [sum_of_squares arr n] reads the first [n] elements of [arr] and
    nothing else: two arrays that agree on them give the same outcome
    (the same value, or the same undefined behaviour), whatever
    follows. *)
Theorem sum_of_squares_reads_prefix ov fuel (arr arr' : list Z) n :
  take (Z.to_nat n) arr = take (Z.to_nat n) arr' ->
  Array.sum_of_squares ov fuel arr n = Array.sum_of_squares ov fuel arr' n.
Proof.
  intros E. unfold Array.sum_of_squares.
  now rewrite <- (array_run_prefix ov fuel arr), E, array_run_prefix.
Qed.

Lemma sum_of_squares_reads_prefix_witness :
  Array.sum_of_squares Trap 5 [3; -4; 7; 9] 2
  = Array.sum_of_squares Trap 5 [3; -4; INT_MIN; INT_MIN; INT_MIN] 2.
Proof.
  apply (sum_of_squares_reads_prefix Trap 5 [3; -4; 7; 9]
           [3; -4; INT_MIN; INT_MIN; INT_MIN] 2).
  reflexivity.
Defined.

(** What a run under [Trap] keeps: the index within [0 .. n] and within
    the array, and [result] the exact, representable sum so far. *)
Lemma array_trap_returns fuel (arr : list Z) n k s' :
  0 <= n <= SIZE_MAX ->
  while (Array.loop_cond n) (Array.loop_body Trap arr) fuel Array.loop_init
  = Ret (k, s') ->
  (Z.to_nat n <= length arr)%nat
  /\ Array.result s' = Array.exact_sum_of_squares (take (Z.to_nat n) arr)
  /\ Array.result s' <= LLONG_MAX.
Proof.
  intros Hn Hw.
  apply (while_returns _ _
           (fun s => 0 <= Array.i s <= n /\
                     (Z.to_nat (Array.i s) <= length arr)%nat /\
                     Array.result s
                     = Array.exact_sum_of_squares (take (Z.to_nat (Array.i s)) arr) /\
                     Array.result s <= LLONG_MAX)) in Hw.
  - destruct Hw as [(Hi & Hlen & Hr & Hmax) Hc].
    unfold Array.loop_cond in Hc. apply Z.ltb_ge in Hc.
    assert (Array.i s' = n) as E by lia. rewrite E in *. auto.
  - intros s s0 (Hi & Hlen & Hr & Hmax) Hc.
    unfold Array.loop_cond in Hc. apply Z.ltb_lt in Hc.
    unfold Array.loop_body, Array.square, ll_mul, ll_add.
    destruct (arr !! Z.to_nat (Array.i s)) as [a|] eqn:Ea; [|discriminate].
    destruct (signed Trap 64 (a * a)) as [sq|] eqn:E1; [|discriminate].
    apply signed_trap_inv in E1 as [-> _].
    destruct (signed Trap 64 _) as [r|] eqn:E2; [|discriminate].
    apply signed_trap_inv in E2 as [-> E2]. intros [= <-].
    cbn [Array.i Array.result]. pose proof (lookup_lt_Some _ _ _ Ea).
    rewrite size_add_1 by lia.
    replace (Z.to_nat (Array.i s + 1)) with (S (Z.to_nat (Array.i s))) by lia.
    rewrite (exact_sum_take_S _ _ _ Ea), Hr.
    repeat split; try lia. unfold LLONG_MAX. lia.
  - cbn. repeat split; try lia. unfold LLONG_MAX. lia.
Qed.

(** When [sum_of_squares] returns, under the letter of the standard:
    for an array of [int] and a count [n] that a [size_t] holds, the
    call returns [v] exactly when the array has [n] elements to read,
    the exact sum of the squares of the first [n] fits a [long long],
    and [v] is that sum; it returns in no other case. *)
Theorem sum_of_squares_strict fuel (arr : list Z) n v :
  Array.int_array arr -> 0 <= n <= SIZE_MAX -> (Z.to_nat n <= fuel)%nat ->
  Array.sum_of_squares Trap fuel arr n = Ret v
  <-> (Z.to_nat n <= length arr)%nat
      /\ Array.exact_sum_of_squares (take (Z.to_nat n) arr) <= LLONG_MAX
      /\ v = Array.exact_sum_of_squares (take (Z.to_nat n) arr).
Proof.
  intros Hint Hn Hfuel. split.
  - unfold Array.sum_of_squares, Array.sum_of_squares_run, Array.loop.
    destruct (while _ _ fuel _) as [[k s']| |] eqn:Ew; try discriminate.
    cbn. intros [= <-].
    destruct (array_trap_returns fuel arr n k s' Hn Ew) as (H1 & H2 & H3).
    rewrite <- H2. auto.
  - intros (Hlen & Hfit & ->).
    unfold Array.sum_of_squares. rewrite <- array_run_prefix.
    pose proof (array_run_exact Trap fuel (take (Z.to_nat n) arr)) as E.
    rewrite length_take_le in E by exact Hlen.
    rewrite Z2Nat.id in E by lia.
    rewrite E; [reflexivity | | lia | exact Hfit | exact Hfuel].
    now apply Forall_take.
Qed.

Lemma sum_of_squares_strict_witness :
  Array.sum_of_squares Trap 2 [INT_MIN; INT_MAX; 5] 2 = Ret 9223372032559808513
  <-> (Z.to_nat 2 <= length ([INT_MIN; INT_MAX; 5]%Z : list Z))%nat
      /\ Array.exact_sum_of_squares (take (Z.to_nat 2) [INT_MIN; INT_MAX; 5])
         <= LLONG_MAX
      /\ 9223372032559808513
         = Array.exact_sum_of_squares (take (Z.to_nat 2) [INT_MIN; INT_MAX; 5]).
Proof.
  apply (sum_of_squares_strict 2 [INT_MIN; INT_MAX; 5] 2 9223372032559808513).
  - repeat constructor; vm_compute; discriminate.
  - vm_compute. split; discriminate.
  - vm_compute. lia.
Defined.

(** On a target where signed arithmetic wraps, [sum_of_squares arr n]
    returns, for every array of [int] with at least [n] elements, the
    exact sum of the first [n] squares reduced to the two's complement
    range of [long long]: an overflowing sum is the low 64 bits of the
    exact one, read as signed. *)
Theorem sum_of_squares_wraps fuel (arr : list Z) n :
  Array.int_array arr ->
  0 <= n <= Z.of_nat (length arr) -> n <= SIZE_MAX -> (Z.to_nat n <= fuel)%nat ->
  Array.sum_of_squares Wrap fuel arr n
  = Ret (wrap 64 (Array.exact_sum_of_squares (take (Z.to_nat n) arr))).
Proof.
  intros Hint Hn Hsize Hfuel.
  destruct (while_exact (Array.loop_cond n) (Array.loop_body Wrap arr)
              (fun s => 0 <= Array.i s <= n /\
                        Array.result s
                        = wrap 64 (Array.exact_sum_of_squares
                                     (take (Z.to_nat (Array.i s)) arr)))
              (array_left n)) with
    (fuel := fuel) (s := Array.loop_init) as (s' & Ew & [Hi Hr] & Hc).
  - unfold Array.loop_cond, array_left. intros s [Hi _] Hc.
    apply Z.ltb_ge in Hc. lia.
  - unfold Array.loop_cond, array_left. intros s [Hi Hr] Hc.
    apply Z.ltb_lt in Hc. unfold Array.loop_body.
    destruct (lookup_lt_is_Some_2 arr (Z.to_nat (Array.i s))) as [a Ea]; [lia|].
    pose proof (int_square_bounds a (int_array_lookup _ _ _ Hint Ea)) as Hsq.
    rewrite Ea, (square_of_int Wrap a (int_array_lookup _ _ _ Hint Ea)).
    unfold ll_add. rewrite signed_wrap by lia.
    rewrite size_add_1 by lia.
    eexists. split; [reflexivity|]. cbn [Array.i Array.result].
    split; [split; [lia|]|lia].
    replace (Z.to_nat (Array.i s + 1)) with (S (Z.to_nat (Array.i s))) by lia.
    rewrite (exact_sum_take_S _ _ _ Ea), Hr. apply wrap_add_r; lia.
  - split; cbn; [lia | reflexivity].
  - unfold array_left. cbn. lia.
  - unfold Array.loop_cond in Hc. apply Z.ltb_ge in Hc.
    unfold Array.sum_of_squares, Array.sum_of_squares_run, Array.loop.
    rewrite Ew. cbn [bind fst snd]. rewrite Hr.
    now replace (Array.i s') with n by lia.
Qed.

Lemma sum_of_squares_wraps_witness :
  Array.sum_of_squares Wrap 2 [INT_MIN; INT_MIN] 2 = Ret LLONG_MIN.
Proof.
  apply (sum_of_squares_wraps 2 [INT_MIN; INT_MIN] 2).
  - repeat constructor; discriminate.
  - vm_compute. split; discriminate.
  - vm_compute. discriminate.
  - vm_compute. lia.
Defined.

(** A count larger than the array is undefined behaviour under either
    overflow convention: the loop has no exit before it reads
    [arr[length arr]], one past the end. *)
Theorem sum_of_squares_out_of_bounds ov fuel (arr : list Z) n :
  Z.of_nat (length arr) < n -> Z.of_nat (length arr) <= SIZE_MAX ->
  (length arr < fuel)%nat ->
  Array.sum_of_squares ov fuel arr n = Undefined.
Proof.
  intros Hn Hsize Hfuel.
  unfold Array.sum_of_squares, Array.sum_of_squares_run, Array.loop.
  rewrite (while_fails _ _
             (fun s => 0 <= Array.i s <= Z.of_nat (length arr))
             (fun s => Z.to_nat (Z.of_nat (length arr) - Array.i s)));
    [reflexivity | | | cbn; lia | cbn; lia].
  - intros s Hs. unfold Array.loop_cond. apply Z.ltb_lt. lia.
  - intros s Hs. unfold Array.loop_body.
    destruct (arr !! Z.to_nat (Array.i s)) as [a|] eqn:Ea; [|now left].
    apply lookup_lt_Some in Ea.
    destruct (Array.square ov a) as [sq|]; [|now left].
    destruct (ll_add ov _ sq) as [r|]; [|now left].
    right. rewrite size_add_1 by lia.
    eexists. split; [reflexivity|]. cbn [Array.i]. lia.
Qed.

Lemma sum_of_squares_out_of_bounds_witness :
  Array.sum_of_squares Wrap 4 [1; 2; 3] 4 = Undefined
  /\ Array.sum_of_squares Trap 1 [] 1 = Undefined.
Proof.
  split.
  - apply (sum_of_squares_out_of_bounds Wrap 4 [1; 2; 3] 4);
      vm_compute; (reflexivity || discriminate || lia).
  - apply (sum_of_squares_out_of_bounds Trap 1 [] 1);
      vm_compute; (reflexivity || discriminate || lia).
Defined.

(** ** string_lib.c: the two functions together *)

(** Whatever the allocator answers, the result of [create_string] can
    be handed to [free_string] as it is, and the memory is then what it
    was before the call: nothing leaks, on the failure path the null
    result is released as a no-op. *)
Theorem free_string_after_create_string ok (m : mem) input s :
  load_string m input = Some s -> Z.of_nat (length s) < SIZE_MAX ->
  exists p m',
    create_string ok input m = Ret (p, m') /\ free_string p m' = Ret m.
Proof.
  intros Hs Hlen. destruct ok.
  - exact (free_string_create_string m input s Hs Hlen).
  - exists NULL, m. split; [|reflexivity].
    unfold create_string, strlen. now rewrite Hs.
Qed.

Lemma free_string_after_create_string_witness :
  (exists p m',
      create_string true (Ptr 7 2) {[ 7%nat := literal hello ]} = Ret (p, m')
      /\ free_string p m' = Ret {[ 7%nat := literal hello ]})
  /\ (exists p m',
      create_string false (Ptr 7 2) {[ 7%nat := literal hello ]} = Ret (p, m')
      /\ free_string p m' = Ret {[ 7%nat := literal hello ]}).
Proof.
  split.
  - apply (free_string_after_create_string true {[ 7%nat := literal hello ]}
             (Ptr 7 2) [x6c; x6c; x6f]); vm_compute; reflexivity.
  - apply (free_string_after_create_string false {[ 7%nat := literal hello ]}
             (Ptr 7 2) [x6c; x6c; x6f]); vm_compute; reflexivity.
Defined.

(** Whenever [create_string] returns, on any input and whatever the
    allocator answered, every object of the memory is still there with
    its content, and at most one object was added: the one the result
    points to. *)
Theorem create_string_frame ok (m m' : mem) input p :
  create_string ok input m = Ret (p, m') ->
  m ⊆ m'
  /\ (p = NULL /\ m' = m
      \/ exists b, p = Ptr b 0 /\ m !! b = None /\ dom m' = {[ b ]} ∪ dom m).
Proof.
  unfold create_string.
  destruct (strlen m input) as [len|]; [|discriminate].
  destruct ok; unfold malloc.
  - unfold strcpy. destruct (load_string _ input) as [s|]; [|discriminate].
    destruct (overlap _ _ _); [discriminate|].
    unfold store. rewrite lookup_insert_eq.
    destruct (_ <=? _)%nat; [|discriminate].
    intros [= <- <-]. rewrite insert_insert_eq.
    pose proof (malloc_fresh m) as Hb.
    split; [now apply insert_subseteq|].
    right. eexists. split; [reflexivity|]. split; [exact Hb|].
    apply dom_insert_L.
  - intros [= <- <-]. split; [reflexivity | now left].
Qed.

Lemma create_string_frame_witness :
  ({[ 7%nat := literal hello ]} : mem)
    ⊆ <[ 8%nat := Block (Some <$> (hello ++ [x00])) true ]> {[ 7%nat := literal hello ]}
  /\ (Ptr 8 0 = NULL
      /\ <[ 8%nat := Block (Some <$> (hello ++ [x00])) true ]> {[ 7%nat := literal hello ]}
         = ({[ 7%nat := literal hello ]} : mem)
      \/ exists b,
          Ptr 8 0 = Ptr b 0
          /\ ({[ 7%nat := literal hello ]} : mem) !! b = None
          /\ dom (<[ 8%nat := Block (Some <$> (hello ++ [x00])) true ]>
                    ({[ 7%nat := literal hello ]} : mem))
             = {[ b ]} ∪ dom ({[ 7%nat := literal hello ]} : mem)).
Proof.
  apply (create_string_frame true {[ 7%nat := literal hello ]} _ (Ptr 7 0) (Ptr 8 0)).
  vm_compute. reflexivity.
Defined.

(** What a successful [create_string] leaves behind. *)
Lemma create_string_post (m : mem) input s :
  load_string m input = Some s -> Z.of_nat (length s) < SIZE_MAX ->
  exists b m',
    create_string true input m = Ret (Ptr b 0, m')
    /\ m !! b = None
    /\ load_string m' (Ptr b 0) = Some s
    /\ forall q t, load_string m q = Some t -> load_string m' q = Some t.
Proof.
  intros Hs Hlen. exists (fresh (dom m)). eexists.
  split; [exact (create_string_success m input s Hs Hlen)|].
  pose proof (malloc_fresh m) as Hb. split; [exact Hb|]. split.
  - cbn [load_string]. rewrite lookup_insert_eq. cbn [cells drop].
    destruct input as [|bi oi]; [discriminate|]. cbn [load_string] in Hs.
    destruct (m !! bi); [|discriminate].
    apply scan_spec in Hs as [Hnn _]. apply scan_spec.
    split; [exact Hnn | exists []; now rewrite app_nil_r].
  - intros q t Hq. now apply (load_string_other m q t _ _ Hb Hq).
Qed.

(** Copies are independent objects: copying a string and then copying
    the copy gives two distinct new buffers, and the original and both
    copies all hold the string. *)
Theorem create_string_twice (m : mem) input s :
  load_string m input = Some s -> Z.of_nat (length s) < SIZE_MAX ->
  exists b1 b2 m1 m2,
    create_string true input m = Ret (Ptr b1 0, m1)
    /\ create_string true (Ptr b1 0) m1 = Ret (Ptr b2 0, m2)
    /\ b1 <> b2
    /\ load_string m2 input = Some s
    /\ load_string m2 (Ptr b1 0) = Some s
    /\ load_string m2 (Ptr b2 0) = Some s.
Proof.
  intros Hs Hlen.
  destruct (create_string_post m input s Hs Hlen) as (b1 & m1 & E1 & F1 & L1 & K1).
  destruct (create_string_post m1 (Ptr b1 0) s L1 Hlen) as (b2 & m2 & E2 & F2 & L2 & K2).
  exists b1, b2, m1, m2. repeat split; auto.
  intros ->. cbn [load_string] in L1. now rewrite F2 in L1.
Qed.

Lemma create_string_twice_witness :
  exists b1 b2 m1 m2,
    create_string true (Ptr 7 0) {[ 7%nat := literal hello ]} = Ret (Ptr b1 0, m1)
    /\ create_string true (Ptr b1 0) m1 = Ret (Ptr b2 0, m2)
    /\ b1 <> b2
    /\ load_string m2 (Ptr 7 0) = Some hello
    /\ load_string m2 (Ptr b1 0) = Some hello
    /\ load_string m2 (Ptr b2 0) = Some hello.
Proof.
  apply (create_string_twice {[ 7%nat := literal hello ]} (Ptr 7 0) hello);
    vm_compute; reflexivity.
Defined.


